(** * Verification of the CPG oscillator and the PPO trainer

    Shallow embedding of [controllers/cpg.py] (class [CPG]) and of
    [scripts/test_agent.py] (class [LearningAgent]).

    Python floats and torch/numpy float tensors are modelled as exact real
    numbers ([R]) and lists of real numbers; [np.pi] is [PI].  Rounding is
    therefore outside the model.  The [debug] prints have no effect on the
    state and are omitted; the [debug] flag itself is kept as a field. *)

From Stdlib Require Import Reals Lra Lia List Bool Arith PeanoNat Permutation.
Import ListNotations.

Local Open Scope R_scope.

(** ** Numerical primitives *)

(** [np.clip(a, lo, hi)], i.e. [minimum(maximum(a, lo), hi)]; the same
    function is [torch.clamp(a, lo, hi)]. *)
Definition np_clip (a lo hi : R) : R := Rmin (Rmax a lo) hi.

(** Python's float [a % m]: [a - m * floor(a / m)]. *)
Definition pymod (a m : R) : R := a - IZR (Int_part (a / m)) * m.

(** ** The oscillator (class CPG) *)

Module CPG.

Record t : Type := mk {
  dt : R;
  amplitude : R;
  frequency : R;
  phase : R;
  debug : bool;
  current_amplitude : R;
  current_phase : R;
  amplitude_min : R;
  amplitude_max : R;
  frequency_min : R;
  frequency_max : R;
  phase_min : R;
  phase_max : R;
  d_step : R;
  h : R;
  gc : R;
  gp : R
}.

(** [CPG.__init__(dt, phase, amplitude, frequency, debug)]. *)
Definition init (dt0 phase0 amplitude0 frequency0 : R) (debug0 : bool) : t :=
  {| dt := dt0;
     amplitude := amplitude0;
     frequency := frequency0;
     phase := phase0;
     debug := debug0;
     current_amplitude := amplitude0;
     current_phase := phase0;
     amplitude_min := 0.05;
     amplitude_max := 0.35;
     frequency_min := 0.1;
     frequency_max := 3.0;
     phase_min := - PI;
     phase_max := PI;
     d_step := 0.150;
     h := 0.30;
     gc := 0.10;
     gp := 0.0 |}.

(** The default values of the keyword arguments of [__init__] and [reset]. *)
Definition default_amplitude : R := 0.01.
Definition default_frequency : R := 0.5.

(** [CPG.reset(phase, amplitude, frequency)]. *)
Definition reset (s : t) (phase0 amplitude0 frequency0 : R) : t :=
  {| dt := dt s;
     amplitude := amplitude0;
     frequency := frequency0;
     phase := phase0;
     debug := debug s;
     current_amplitude := amplitude0;
     current_phase := phase0;
     amplitude_min := amplitude_min s;
     amplitude_max := amplitude_max s;
     frequency_min := frequency_min s;
     frequency_max := frequency_max s;
     phase_min := phase_min s;
     phase_max := phase_max s;
     d_step := d_step s;
     h := h s;
     gc := gc s;
     gp := gp s |}.

Definition convergence_rate : R := 30.0.

(** The state left by [CPG.update(amplitude_delta, frequency_delta,
    phase_delta)]; every assignment of the method body is one [let]. *)
Definition update_state (s : t) (amplitude_delta frequency_delta phase_delta : R) : t :=
  let amplitude_delta := amplitude_delta * ((amplitude_max s - amplitude_min s) * 0.005) in
  let frequency_delta := frequency_delta * ((frequency_max s - frequency_min s) * 0.005) in
  let phase_delta := phase_delta * ((phase_max s - phase_min s) * 0.005) in
  let amplitude1 := np_clip (amplitude s + amplitude_delta) (amplitude_min s) (amplitude_max s) in
  let frequency1 := np_clip (frequency s + frequency_delta) (frequency_min s) (frequency_max s) in
  let phase1 := phase s + phase_delta in
  let phase2 := pymod phase1 (2 * PI) in
  let current_amplitude1 :=
    current_amplitude s + convergence_rate * (amplitude1 - current_amplitude s) * dt s in
  let current_phase1 := current_phase s + frequency1 * dt s in
  let current_phase2 := pymod current_phase1 (2 * PI) in
  {| dt := dt s;
     amplitude := amplitude1;
     frequency := frequency1;
     phase := phase2;
     debug := debug s;
     current_amplitude := current_amplitude1;
     current_phase := current_phase2;
     amplitude_min := amplitude_min s;
     amplitude_max := amplitude_max s;
     frequency_min := frequency_min s;
     frequency_max := frequency_max s;
     phase_min := phase_min s;
     phase_max := phase_max s;
     d_step := d_step s;
     h := h s;
     gc := gc s;
     gp := gp s |}.

(** The foot position computed at the end of [update] from the state the
    method has just written. *)
Definition foot (s : t) : R * R :=
  let x_foot := - d_step s * (current_amplitude s - 1) * cos (current_phase s) in
  let z_foot :=
    if Rlt_dec 0 (sin (current_phase s))
    then - h s + gc s * sin (current_phase s)
    else - h s + gp s * sin (current_phase s) in
  (x_foot, z_foot).

(** [CPG.update]: the new state and the returned pair [(x_foot, z_foot)]. *)
Definition update (s : t) (amplitude_delta frequency_delta phase_delta : R) : t * (R * R) :=
  let s' := update_state s amplitude_delta frequency_delta phase_delta in
  (s', foot s').

(** States an oscillator can be in: built by the constructor, then driven
    through its two methods. *)
Inductive reachable : t -> Prop :=
| reach_init : forall dt0 phase0 amplitude0 frequency0 debug0,
    reachable (init dt0 phase0 amplitude0 frequency0 debug0)
| reach_reset : forall s phase0 amplitude0 frequency0,
    reachable s -> reachable (reset s phase0 amplitude0 frequency0)
| reach_update : forall s da df dp,
    reachable s -> reachable (fst (update s da df dp)).

(** The fields that no method assigns after construction. *)
Definition same_constants (s s' : t) : Prop :=
  dt s' = dt s /\ debug s' = debug s /\
  amplitude_min s' = amplitude_min s /\ amplitude_max s' = amplitude_max s /\
  frequency_min s' = frequency_min s /\ frequency_max s' = frequency_max s /\
  phase_min s' = phase_min s /\ phase_max s' = phase_max s /\
  d_step s' = d_step s /\ h s' = h s /\ gc s' = gc s /\ gp s' = gp s.

(** The values the constructor gives to the limits and to the geometry. *)
Definition has_init_constants (s : t) : Prop :=
  amplitude_min s = 0.05 /\ amplitude_max s = 0.35 /\
  frequency_min s = 0.1 /\ frequency_max s = 3.0 /\
  phase_min s = - PI /\ phase_max s = PI /\
  d_step s = 0.150 /\ h s = 0.30 /\ gc s = 0.10 /\ gp s = 0.0.

(** The spec's wording of the scaled delta: the raw delta times 0.5% of the
    width of the range [lo, hi]. *)
Definition scaled (raw lo hi : R) : R := raw * 0.005 * (hi - lo).

(** Distance between the smoothed amplitude and its target. *)
Definition amp_dist (s : t) : R := Rabs (current_amplitude s - amplitude s).

(** [n] calls of [update(0, 0, 0)]. *)
Definition run_zero (n : nat) (s : t) : t :=
  Nat.iter n (fun s0 => fst (update s0 0 0 0)) s.

(** The oscillator of the scenario: [CPG(dt=0.01, phase=0)] with the default
    amplitude and frequency. *)
Definition osc0 : t := init 0.01 0 default_amplitude default_frequency false.

(** What holds of [osc0] and of every state reached from it by zero-delta
    updates. *)
Definition scenario_inv (s : t) : Prop :=
  has_init_constants s /\ dt s = 0.01 /\ frequency s = 0.5 /\
  amplitude s <= 0.05 /\ current_amplitude s < 0.05.

(** A caller's control loop: one [update] per delta triple, collecting the
    returned foot positions. *)
Fixpoint run_updates (s : t) (deltas : list (R * R * R)) : t * list (R * R) :=
  match deltas with
  | [] => (s, [])
  | (da, df, dp) :: rest =>
      let (s1, xz) := update s da df dp in
      let (s2, out) := run_updates s1 rest in
      (s2, xz :: out)
  end.

(** The state with its target phase overwritten. *)
Definition with_phase (s : t) (p : R) : t :=
  {| dt := dt s;
     amplitude := amplitude s;
     frequency := frequency s;
     phase := p;
     debug := debug s;
     current_amplitude := current_amplitude s;
     current_phase := current_phase s;
     amplitude_min := amplitude_min s;
     amplitude_max := amplitude_max s;
     frequency_min := frequency_min s;
     frequency_max := frequency_max s;
     phase_min := phase_min s;
     phase_max := phase_max s;
     d_step := d_step s;
     h := h s;
     gc := gc s;
     gp := gp s |}.

(** The amplitude and frequency components of a delta triple. *)
Definition drop_phase_delta (d : R * R * R) : R * R := (fst (fst d), snd (fst d)).

End CPG.

(** ** Tensors

    One-dimensional float tensors as lists of reals.  A binary operation on
    two tensors follows torch's broadcasting rule for shapes [n] and [m]:
    equal lengths go elementwise, a length-1 operand is repeated, anything
    else raises (here [None]). *)

Module Tensor.

Definition tensor : Type := list R.

Definition bind {A B : Type} (x : option A) (k : A -> option B) : option B :=
  match x with
  | Some a => k a
  | None => None
  end.

Notation "x <- e ;; k" := (bind e (fun x => k))
  (at level 61, e at next level, right associativity).

Fixpoint map2 (f : R -> R -> R) (a b : tensor) : tensor :=
  match a, b with
  | x :: a', y :: b' => f x y :: map2 f a' b'
  | _, _ => []
  end.

Definition broadcast2 (f : R -> R -> R) (a b : tensor) : option tensor :=
  if (length a =? length b)%nat then Some (map2 f a b)
  else match a, b with
       | [x], _ => Some (map (f x) b)
       | _, [y] => Some (map (fun x => f x y) a)
       | _, _ => None
       end.

Definition add : tensor -> tensor -> option tensor := broadcast2 Rplus.
Definition sub : tensor -> tensor -> option tensor := broadcast2 Rminus.
Definition mul : tensor -> tensor -> option tensor := broadcast2 Rmult.
(** [torch.min(a, b)] on two tensors: the elementwise minimum. *)
Definition minimum : tensor -> tensor -> option tensor := broadcast2 Rmin.

(** [c * t] and [c - t] for a Python scalar [c]. *)
Definition scale (c : R) (t : tensor) : tensor := map (Rmult c) t.
Definition rsub (c : R) (t : tensor) : tensor := map (fun x => c - x) t.

Definition zeros_like (t : tensor) : tensor := repeat 0 (length t).

(** [t[i]] for an index [i >= 0]; [None] is IndexError. *)
Definition getitem (t : tensor) (i : nat) : option R := nth_error t i.

(** [t[i] = v] (in place); [None] is IndexError. *)
Fixpoint setitem (t : tensor) (i : nat) (v : R) : option tensor :=
  match t, i with
  | [], _ => None
  | _ :: t', O => Some (v :: t')
  | x :: t', S i' => t'' <- setitem t' i' v ;; Some (x :: t'')
  end.

(** [t[idx]] for an array of indices. *)
Fixpoint index_select (t : tensor) (idx : list nat) : option tensor :=
  match idx with
  | [] => Some []
  | i :: idx' =>
      x <- getitem t i ;;
      rest <- index_select t idx' ;;
      Some (x :: rest)
  end.

Definition sum (t : tensor) : R := fold_right Rplus 0 t.

(** [t.mean()].  On an empty tensor torch yields nan; the quotient by
    [INR 0] stands for it here. *)
Definition mean (t : tensor) : R := sum t / INR (length t).

(** [t.std()], with Bessel's correction as torch computes it. *)
Definition std (t : tensor) : R :=
  sqrt (sum (map (fun x => (x - mean t) * (x - mean t)) t) / (INR (length t) - 1)).

(** [F.mse_loss(input, target)] with the default mean reduction. *)
Definition mse_loss (input target : tensor) : option R :=
  d <- sub input target ;;
  Some (mean (map (fun x => x * x) d)).

(** [torch.clamp(t, lo, hi)]. *)
Definition clamp (t : tensor) (lo hi : R) : tensor := map (fun x => np_clip x lo hi) t.

(** Sum of [f 0 + ... + f (n-1)], for statements written index by index. *)
Definition sum_upto (n : nat) (f : nat -> R) : R := sum (map f (seq 0 n)).

End Tensor.

(** ** The trainer (class LearningAgent) *)

Module LearningAgent.
Import Tensor.

(** The hyperparameters set in [__init__]. *)
Record hyper : Type := mk_hyper {
  learning_rate : R;
  gamma : R;
  lam : R;
  epsilon : R;
  entropy_coef : R;
  max_timestep : nat;
  rollout_steps : nat;
  epochs : nat;
  episode_num : nat;
  batch_size : nat
}.

Definition init_hyper : hyper :=
  {| learning_rate := 1e-3;
     gamma := 0.99;
     lam := 0.95;
     epsilon := 0.2;
     entropy_coef := 0.01;
     max_timestep := 1000;
     rollout_steps := 100;
     epochs := 10;
     episode_num := 10;
     batch_size := 32 |}.

(** One entry of [episode_buffer]. *)
Record Transition : Type := mk_transition {
  obs : list R;
  action : list R;
  reward : R;
  log_prob : R;
  state_value : R;
  next_state_value : R;
  done : bool
}.

(** [torch.tensor(done, dtype=torch.float32)]. *)
Definition float_of_bool (b : bool) : R := if b then 1 else 0.

(** The loop of [compute_advantages], over the indices it visits. *)
Fixpoint gae_loop (hp : hyper) (deltas dones : tensor) (ts : list nat)
    (gae : R) (advantages : tensor) : option tensor :=
  match ts with
  | [] => Some advantages
  | t :: ts' =>
      delta_t <- getitem deltas t ;;
      done_t <- getitem dones t ;;
      let gae := delta_t + gamma hp * lam hp * (1 - done_t) * gae in
      advantages <- setitem advantages t gae ;;
      gae_loop hp deltas dones ts' gae advantages
  end.

(** [compute_advantages(rewards, state_values, next_state_values, dones)]. *)
Definition compute_advantages (hp : hyper)
    (rewards state_values next_state_values dones : tensor) : option tensor :=
  t1 <- mul (scale (gamma hp) next_state_values) (rsub 1 dones) ;;
  t2 <- add rewards t1 ;;
  deltas <- sub t2 state_values ;;
  let advantages := zeros_like rewards in
  gae_loop hp deltas dones (rev (seq 0 (length rewards))) 0 advantages.

(** What [update_network] computes before its minibatch loop. *)
Record update_data : Type := mk_update_data {
  ud_log_probs_old : tensor;
  ud_advantages : tensor;
  ud_returns : tensor
}.

(** Lines "Compute advantages and returns" and "Normalize advantages" of
    [update_network], on the stacked tensors. *)
Definition advantages_and_returns (hp : hyper)
    (rewards state_values next_state_values dones : tensor)
    : option (tensor * tensor) :=
  advantages <- compute_advantages hp rewards state_values next_state_values dones ;;
  returns <- add advantages state_values ;;
  let m := mean advantages in
  let sd := std advantages in
  let advantages := map (fun a => (a - m) / (sd + 1e-8)) advantages in
  Some (advantages, returns).

(** [update_network] up to the minibatch loop, from the buffer. *)
Definition prepare_update (hp : hyper) (episode_buffer : list Transition)
    : option update_data :=
  let rewards := map reward episode_buffer in
  let log_probs_old := map log_prob episode_buffer in
  let state_values := map state_value episode_buffer in
  let next_state_values := map next_state_value episode_buffer in
  let dones := map (fun item => float_of_bool (done item)) episode_buffer in
  ar <- advantages_and_returns hp rewards state_values next_state_values dones ;;
  Some {| ud_log_probs_old := log_probs_old;
          ud_advantages := fst ar;
          ud_returns := snd ar |}.


(** [ppo_loss(log_probs, log_probs_old, advantages, values, returns, entropy)]:
    the triple [(total_loss, policy_loss, value_loss)]. *)
Definition ppo_loss (hp : hyper)
    (log_probs log_probs_old advantages values returns entropy : tensor)
    : option (R * R * R) :=
  diff <- sub log_probs log_probs_old ;;
  let ratio := map exp diff in
  surr1 <- mul ratio advantages ;;
  surr2 <- mul (clamp ratio (1.0 - epsilon hp) (1.0 + epsilon hp)) advantages ;;
  m <- minimum surr1 surr2 ;;
  let policy_loss := - mean m in
  value_loss <- mse_loss values returns ;;
  let entropy_bonus := mean entropy in
  let total_loss := policy_loss + 0.5 * value_loss - entropy_coef hp * entropy_bonus in
  Some (total_loss, policy_loss, value_loss).

(** *** The training loop [run]

    The environment and the policy network are outside the program: what
    they produce in one pass through the body of the [while] loop arrives as
    the [Transition] the body appends.  [update_network] is recorded by the
    buffer it is called on. *)

Inductive pc : Type :=
| PcEpisode    (* at the head of [for ep in range(episode_num)] *)
| PcLoopHead   (* at the test of the [while] loop *)
| PcTrigger    (* after [global_step += 1], at [if done or ...] *)
| PcFinished.  (* after the [for] loop *)

Record state : Type := mk_state {
  st_pc : pc;
  st_ep : nat;
  st_timestep : nat;
  st_done : bool;
  st_global_step : nat;
  episode_buffer : list Transition;
  update_calls : list (list Transition)
}.

Definition init_state : state :=
  {| st_pc := PcEpisode; st_ep := 0; st_timestep := 0; st_done := false;
     st_global_step := 0; episode_buffer := []; update_calls := [] |}.

(** [done or timestep % rollout_steps == 0]; [None] is ZeroDivisionError. *)
Definition trigger (hp : hyper) (done0 : bool) (timestep : nat) : option bool :=
  if done0 then Some true
  else if (rollout_steps hp =? 0)%nat then None
  else Some (timestep mod rollout_steps hp =? 0)%nat.

(** One move of [run] from one program point to the next. *)
Definition step (hp : hyper) (s : state) (tr : Transition) : option state :=
  match st_pc s with
  | PcEpisode =>
      if (st_ep s <? episode_num hp)%nat
      then Some {| st_pc := PcLoopHead; st_ep := st_ep s; st_timestep := 0;
                   st_done := false; st_global_step := st_global_step s;
                   episode_buffer := episode_buffer s;
                   update_calls := update_calls s |}
      else Some {| st_pc := PcFinished; st_ep := st_ep s;
                   st_timestep := st_timestep s; st_done := st_done s;
                   st_global_step := st_global_step s;
                   episode_buffer := episode_buffer s;
                   update_calls := update_calls s |}
  | PcLoopHead =>
      if negb (st_done s) && (st_timestep s <? max_timestep hp)%nat
      then Some {| st_pc := PcTrigger; st_ep := st_ep s;
                   st_timestep := st_timestep s + 1;
                   st_done := done tr;
                   st_global_step := st_global_step s + 1;
                   episode_buffer := episode_buffer s ++ [tr];
                   update_calls := update_calls s |}
      else Some {| st_pc := PcEpisode; st_ep := st_ep s + 1;
                   st_timestep := st_timestep s; st_done := st_done s;
                   st_global_step := st_global_step s;
                   episode_buffer := episode_buffer s;
                   update_calls := update_calls s |}
  | PcTrigger =>
      fire <- trigger hp (st_done s) (st_timestep s) ;;
      if fire : bool
      then Some {| st_pc := PcLoopHead; st_ep := st_ep s;
                   st_timestep := st_timestep s; st_done := st_done s;
                   st_global_step := st_global_step s;
                   episode_buffer := [];
                   update_calls := update_calls s ++ [episode_buffer s] |}
      else Some {| st_pc := PcLoopHead; st_ep := st_ep s;
                   st_timestep := st_timestep s; st_done := st_done s;
                   st_global_step := st_global_step s;
                   episode_buffer := episode_buffer s;
                   update_calls := update_calls s |}
  | PcFinished => Some s
  end.

Inductive reachable (hp : hyper) : state -> Prop :=
| reach_init : reachable hp init_state
| reach_step : forall s tr s',
    reachable hp s -> step hp s tr = Some s' -> reachable hp s'.

(** *** The spec's wording of the update trigger *)

(** An update is due exactly after a step (that is, at [PcTrigger]) in which
    the episode terminated or the buffer reached [rollout_steps] entries. *)
Definition spec_update_due (hp : hyper) (s : state) : bool :=
  match st_pc s with
  | PcTrigger =>
      st_done s || (length (episode_buffer s) =? rollout_steps hp)%nat
  | _ => false
  end.

(** What ties the buffer to the step counter at each program point. *)
Definition loop_inv (hp : hyper) (s : state) : Prop :=
  match st_pc s with
  | PcEpisode | PcFinished => episode_buffer s = []
  | PcLoopHead =>
      (st_timestep s <= max_timestep hp)%nat /\
      (if st_done s then episode_buffer s = []
       else length (episode_buffer s) = st_timestep s mod rollout_steps hp)
  | PcTrigger =>
      (1 <= st_timestep s <= max_timestep hp)%nat /\
      length (episode_buffer s) = ((st_timestep s - 1) mod rollout_steps hp + 1)%nat
  end.

(** *** The minibatch loop of [update_network] *)

(** [range(0, n, step)] for a positive [step]: 0, step, 2*step, ... below n. *)
Definition range_step (n step : nat) : list nat :=
  map (fun k => (k * step)%nat) (seq 0 ((n + step - 1) / step)).

(** [l[start:stop]]. *)
Definition slice {A : Type} (l : list A) (start stop : nat) : list A :=
  firstn (stop - start) (skipn start l).

(** The [batch_indices] arrays of one epoch, from the shuffled [indices];
    [None] is the ValueError of [range] for a zero [batch_size]. *)
Definition epoch_batches (hp : hyper) (indices : list nat) : option (list (list nat)) :=
  if (batch_size hp =? 0)%nat then None
  else Some (map (fun start_idx => slice indices start_idx (start_idx + batch_size hp))
                 (range_step (length indices) (batch_size hp))).

(** *** The loop as a run over what the environment supplies *)

(** Whether the next move from [s] is a pass through the loop body, which
    appends the supplied transition. *)
Definition appends (hp : hyper) (s : state) : bool :=
  match st_pc s with
  | PcLoopHead => negb (st_done s) && (st_timestep s <? max_timestep hp)%nat
  | _ => false
  end.

(** Reachable states together with the transitions recorded so far, oldest
    first. *)
Inductive reaches (hp : hyper) : state -> list Transition -> Prop :=
| reaches_init : reaches hp init_state []
| reaches_step : forall s hist tr s',
    reaches hp s hist -> step hp s tr = Some s' ->
    reaches hp s' (if appends hp s then hist ++ [tr] else hist).



(** What ties the buffer to the step counter during the first episode, and
    what is left of it when the second episode is about to start. *)
Definition first_episode_inv (hp : hyper) (s : state) : Prop :=
  (st_ep s = 0%nat ->
   match st_pc s with
   | PcEpisode => episode_buffer s = []
   | PcLoopHead =>
       (st_timestep s <= max_timestep hp)%nat /\
       (st_done s = false ->
        length (episode_buffer s) = st_timestep s mod rollout_steps hp)
   | PcTrigger =>
       (1 <= st_timestep s <= max_timestep hp)%nat /\
       length (episode_buffer s) = ((st_timestep s - 1) mod rollout_steps hp + 1)%nat
   | PcFinished => True
   end) /\
  (st_ep s = 1%nat -> st_pc s = PcEpisode -> st_done s = false ->
   length (episode_buffer s) = max_timestep hp mod rollout_steps hp).

(** *** The spec's wording of the estimator and of the loss *)

(** TD residual of one step. *)
Definition spec_delta (hp : hyper) (r v nv d : R) : R :=
  r + gamma hp * nv * (1 - d) - v.

(** Advantages by the backward recursion: the advantage of a step is its
    residual plus the decayed advantage of the next step, the carry being 0
    past the last step. *)
Fixpoint spec_advantages (hp : hyper) (rs vs nvs ds : list R) : list R :=
  match rs, vs, nvs, ds with
  | r :: rs', v :: vs', nv :: nvs', d :: ds' =>
      let rest := spec_advantages hp rs' vs' nvs' ds' in
      let gae := hd 0 rest in
      (spec_delta hp r v nv d + gamma hp * lam hp * (1 - d) * gae) :: rest
  | _, _, _, _ => []
  end.

(** The result of [gae_loop] in closed form, on the residuals. *)
Fixpoint backward (hp : hyper) (deltas dones : list R) : list R :=
  match deltas, dones with
  | delta :: deltas', d :: dones' =>
      let rest := backward hp deltas' dones' in
      (delta + gamma hp * lam hp * (1 - d) * hd 0 rest) :: rest
  | _, _ => []
  end.

(** Importance ratio and the two surrogate terms at index [i]. *)
Definition spec_ratio (lp lpo : list R) (i : nat) : R :=
  exp (nth i lp 0 - nth i lpo 0).

Definition spec_surrogate (hp : hyper) (lp lpo adv : list R) (i : nat) : R :=
  Rmin (spec_ratio lp lpo i * nth i adv 0)
       (np_clip (spec_ratio lp lpo i) (1 - epsilon hp) (1 + epsilon hp) * nth i adv 0).

Definition spec_policy_loss (hp : hyper) (lp lpo adv : list R) : R :=
  - (sum_upto (length lp) (spec_surrogate hp lp lpo adv) / INR (length lp)).

Definition spec_value_loss (values returns : list R) : R :=
  sum_upto (length values)
    (fun i => (nth i values 0 - nth i returns 0) * (nth i values 0 - nth i returns 0))
  / INR (length values).

End LearningAgent.

(** ** Facts about the numerical primitives *)

Lemma np_clip_bounds (a lo hi : R) : lo <= hi -> lo <= np_clip a lo hi <= hi.
Proof.
  intros Hle. unfold np_clip, Rmin, Rmax.
  destruct (Rle_dec a lo); destruct (Rle_dec _ hi); lra.
Qed.

Lemma np_clip_below (a lo hi : R) : lo <= hi -> a <= lo -> np_clip a lo hi = lo.
Proof.
  intros Hle Ha. unfold np_clip, Rmin, Rmax.
  destruct (Rle_dec a lo); destruct (Rle_dec _ hi); lra.
Qed.

Lemma np_clip_above (a lo hi : R) : lo <= hi -> hi <= a -> np_clip a lo hi = hi.
Proof.
  intros Hle Ha. unfold np_clip, Rmin, Rmax.
  destruct (Rle_dec a lo); destruct (Rle_dec _ hi); lra.
Qed.

Lemma np_clip_inside (a lo hi : R) : lo <= a <= hi -> np_clip a lo hi = a.
Proof.
  intros Ha. unfold np_clip, Rmin, Rmax.
  destruct (Rle_dec a lo); destruct (Rle_dec _ hi); lra.
Qed.

Lemma pymod_range (a m : R) : 0 < m -> 0 <= pymod a m < m.
Proof.
  intros Hm. unfold pymod.
  destruct (base_Int_part (a / m)) as [Hlo Hhi].
  assert (Ha : a = a / m * m) by (field; lra).
  set (q := IZR (Int_part (a / m))) in *.
  split.
  - assert (q * m <= a / m * m) by (apply Rmult_le_compat_r; lra). lra.
  - assert ((a / m - q) * m < 1 * m) by (apply Rmult_lt_compat_r; lra). lra.
Qed.

Lemma pymod_small (a m : R) : 0 <= a < m -> pymod a m = a.
Proof.
  intros [Ha Hm]. unfold pymod.
  assert (Hq : 0 <= a / m < 1).
  { split.
    - apply Rmult_le_pos; [lra|]. left. apply Rinv_0_lt_compat. lra.
    - apply (Rmult_lt_reg_r m); [lra|]. replace (a / m * m) with a by (field; lra). lra. }
  rewrite <- (Int_part_spec (a / m) 0%Z); simpl; lra.
Qed.

Lemma pymod_pymod_plus (a b m : R) :
  0 < m -> pymod (pymod a m + b) m = pymod (a + b) m.
Proof.
  intros Hm. unfold pymod at 2.
  set (k := Int_part (a / m)).
  unfold pymod.
  assert (Hq : (a - IZR k * m + b) / m = (a + b) / m - IZR k) by (field; lra).
  rewrite Hq.
  assert (Hk : Int_part ((a + b) / m - IZR k) = (Int_part ((a + b) / m) - k)%Z).
  { symmetry. apply Int_part_spec. rewrite minus_IZR.
    destruct (base_Int_part ((a + b) / m)) as [Hlo Hhi]. lra. }
  rewrite Hk, minus_IZR. ring.
Qed.


Lemma two_pi_pos : 0 < 2 * PI.
Proof. pose proof PI_RGT_0. lra. Qed.

(** ** The oscillator: constants, ranges, scaling, output *)

Module CPGFacts.
Import CPG.

Lemma reachable_constants (s : t) : reachable s -> has_init_constants s.
Proof.
  induction 1 as [ | s p a f Hs IH | s da df dp Hs IH ].
  - unfold has_init_constants; cbn. repeat split; reflexivity.
  - exact IH.
  - exact IH.
Qed.

(** C10. [reset] assigns only [amplitude], [frequency], [phase],
    [current_amplitude] and [current_phase]: the timestep, the debug flag,
    the six parameter limits and the four geometry constants are the same
    after [reset] and after [update] as before. *)
Theorem reset_update_frame (s : t) (p a f da df dp : R) :
  same_constants s (reset s p a f) /\
  same_constants s (fst (update s da df dp)).
Proof.
  split; unfold same_constants; cbn; repeat split; reflexivity.
Qed.

(** C1. After [update] on any reachable oscillator, with any deltas, the
    target amplitude lies in [0.05, 0.35], the target frequency in
    [0.1, 3.0] and the integrated phase in [0, 2 pi). *)
Theorem update_keeps_ranges (s : t) (da df dp : R) :
  reachable s ->
  let s' := fst (update s da df dp) in
  0.05 <= amplitude s' <= 0.35 /\
  0.1 <= frequency s' <= 3.0 /\
  0 <= current_phase s' < 2 * PI.
Proof.
  intros Hs. apply reachable_constants in Hs.
  destruct Hs as (Hamin & Hamax & Hfmin & Hfmax & _).
  cbn. rewrite Hamin, Hamax, Hfmin, Hfmax.
  split; [apply np_clip_bounds; lra|].
  split; [apply np_clip_bounds; lra|].
  apply pymod_range, two_pi_pos.
Qed.

Lemma update_keeps_ranges_witness :
  reachable (init 0.01 0 0.01 0.5 false) /\
  (let s' := fst (update (init 0.01 0 0.01 0.5 false) 1 (-1) 1) in
   0.05 <= amplitude s' <= 0.35 /\
   0.1 <= frequency s' <= 3.0 /\
   0 <= current_phase s' < 2 * PI).
Proof.
  split.
  - apply reach_init.
  - apply (update_keeps_ranges (init 0.01 0 0.01 0.5 false) 1 (-1) 1).
    apply reach_init.
Defined.

(** C5. [update] adds to each target parameter the raw delta scaled to 0.5%
    of the width of that parameter's range (0.3 for the amplitude, 2.9 for
    the frequency, 2 pi for the phase), before clamping the amplitude and
    the frequency and wrapping the phase. *)
Theorem update_scales_deltas (s : t) (raw_a raw_f raw_p : R) :
  reachable s ->
  let s' := fst (update s raw_a raw_f raw_p) in
  amplitude s' =
    np_clip (amplitude s + scaled raw_a (amplitude_min s) (amplitude_max s))
            (amplitude_min s) (amplitude_max s) /\
  frequency s' =
    np_clip (frequency s + scaled raw_f (frequency_min s) (frequency_max s))
            (frequency_min s) (frequency_max s) /\
  phase s' = pymod (phase s + scaled raw_p (phase_min s) (phase_max s)) (2 * PI) /\
  scaled raw_a (amplitude_min s) (amplitude_max s) = raw_a * 0.005 * (0.35 - 0.05) /\
  scaled raw_f (frequency_min s) (frequency_max s) = raw_f * 0.005 * (3.0 - 0.1) /\
  scaled raw_p (phase_min s) (phase_max s) = raw_p * 0.005 * (2 * PI).
Proof.
  intros Hs. apply reachable_constants in Hs.
  destruct Hs as (Hamin & Hamax & Hfmin & Hfmax & Hpmin & Hpmax & _).
  cbn. unfold scaled.
  repeat split.
  - f_equal. lra.
  - f_equal. lra.
  - f_equal. lra.
  - rewrite Hamin, Hamax. reflexivity.
  - rewrite Hfmin, Hfmax. reflexivity.
  - rewrite Hpmin, Hpmax. lra.
Qed.

Lemma update_scales_deltas_witness :
  reachable osc0 /\
  amplitude (fst (update osc0 1 1 1)) =
    np_clip (amplitude osc0 + scaled 1 (amplitude_min osc0) (amplitude_max osc0))
            (amplitude_min osc0) (amplitude_max osc0).
Proof.
  split.
  - apply reach_init.
  - apply (update_scales_deltas osc0 1 1 1). apply reach_init.
Defined.

(** C6. The pair returned by [update] is computed from the state the call
    leaves: x = -d_step * (current_amplitude - 1) * cos(current_phase);
    z = -h + gc * sin(current_phase) when sin(current_phase) > 0, and
    z = -h + gp * sin(current_phase) otherwise. *)
Theorem update_returns_foot (s : t) (da df dp : R) :
  let s' := fst (update s da df dp) in
  let xz := snd (update s da df dp) in
  fst xz = - d_step s' * (current_amplitude s' - 1) * cos (current_phase s') /\
  (sin (current_phase s') > 0 ->
   snd xz = - h s' + gc s' * sin (current_phase s')) /\
  (sin (current_phase s') <= 0 ->
   snd xz = - h s' + gp s' * sin (current_phase s')).
Proof.
  cbn zeta. unfold update. cbn [fst snd]. unfold foot. cbn [fst snd].
  split; [reflexivity|].
  destruct (Rlt_dec 0 (sin (current_phase (update_state s da df dp)))) as [Hpos|Hneg];
    split; intros Hsin; try reflexivity; lra.
Qed.


Lemma update_returns_foot_witness :
  let s := init 0 (PI / 2) 0.2 0.5 false in
  sin (current_phase (fst (update s 0 0 0))) > 0 /\
  snd (snd (update s 0 0 0)) = - 0.30 + 0.10 * 1.
Proof.
  cbn zeta.
  assert (Hcp : current_phase (fst (update (init 0 (PI / 2) 0.2 0.5 false) 0 0 0)) = PI / 2).
  { cbn. rewrite Rmult_0_r, Rplus_0_r. apply pymod_small.
    pose proof PI_RGT_0. lra. }
  assert (Hsin : sin (current_phase (fst (update (init 0 (PI / 2) 0.2 0.5 false) 0 0 0))) > 0).
  { rewrite Hcp, sin_PI2. lra. }
  split; [exact Hsin|].
  destruct (update_returns_foot (init 0 (PI / 2) 0.2 0.5 false) 0 0 0) as (_ & Hswing & _).
  rewrite (Hswing Hsin), Hcp, sin_PI2.
  cbn [h gc fst update update_state init]. lra.
Defined.

(** On a reachable oscillator [reset] leaves exactly the state the
    constructor builds from the same arguments. *)
Lemma reset_is_init (s : t) (p a f : R) :
  reachable s -> reset s p a f = init (dt s) p a f (debug s).
Proof.
  intros Hs. apply reachable_constants in Hs.
  destruct Hs as (H1 & H2 & H3 & H4 & H5 & H6 & H7 & H8 & H9 & H10).
  unfold reset, init. rewrite H1, H2, H3, H4, H5, H6, H7, H8, H9, H10.
  reflexivity.
Qed.

(** The debug flag has no influence on what [update] returns. *)
Lemma update_output_debug (d p a f : R) (b1 b2 : bool) (da df dp : R) :
  snd (update (init d p a f b1) da df dp) = snd (update (init d p a f b2) da df dp).
Proof. reflexivity. Qed.

(** C8. On any reachable oscillator, [reset(phase, amplitude, frequency)]
    followed by [update(0, 0, 0)] returns the same (x, z) as [update(0, 0, 0)]
    on a freshly constructed oscillator with the same dt and the same three
    arguments. *)
Theorem reset_update_roundtrip (s : t) (p a f : R) (dbg : bool) :
  reachable s ->
  snd (update (reset s p a f) 0 0 0) = snd (update (init (dt s) p a f dbg) 0 0 0).
Proof.
  intros Hs. rewrite (reset_is_init s p a f Hs).
  apply update_output_debug.
Qed.

Lemma reset_update_roundtrip_witness :
  let s := fst (update osc0 1 1 1) in
  reachable s /\
  snd (update (reset s 1 0.2 2) 0 0 0) = snd (update (init (dt s) 1 0.2 2 true) 0 0 0).
Proof.
  cbn zeta. split.
  - apply reach_update, reach_init.
  - apply (reset_update_roundtrip (fst (update osc0 1 1 1)) 1 0.2 2 true).
    apply reach_update, reach_init.
Defined.

(** C9. For an oscillator constructed with its amplitude or frequency
    outside the legal range, the first [update(0, 0, 0)] moves that target
    to the nearest bound of the range, so the call changes it; with the
    default amplitude 0.01 the target becomes 0.05.  (The third target, the
    phase, has no clamp: the same call wraps it into [0, 2 pi).) *)
Theorem first_zero_update_clamps (d p a f : R) (dbg : bool) :
  let s' := fst (update (init d p a f dbg) 0 0 0) in
  (a < 0.05 -> amplitude s' = 0.05 /\ amplitude s' <> a) /\
  (0.35 < a -> amplitude s' = 0.35 /\ amplitude s' <> a) /\
  (f < 0.1 -> frequency s' = 0.1 /\ frequency s' <> f) /\
  (3.0 < f -> frequency s' = 3.0 /\ frequency s' <> f) /\
  (a = default_amplitude -> amplitude s' = 0.05 /\ amplitude s' <> a) /\
  phase s' = pymod p (2 * PI).
Proof.
  cbn. rewrite !Rmult_0_l, !Rplus_0_r.
  unfold default_amplitude.
  split; [|split; [|split; [|split; [|split]]]]; try reflexivity; intros Hout;
    (rewrite np_clip_below by lra) || (rewrite np_clip_above by lra);
    split; lra.
Qed.

Lemma first_zero_update_clamps_witness :
  default_amplitude < 0.05 /\
  amplitude (fst (update osc0 0 0 0)) = 0.05 /\
  amplitude (fst (update osc0 0 0 0)) <> amplitude osc0.
Proof.
  assert (Hlt : default_amplitude < 0.05) by (unfold default_amplitude; lra).
  split; [exact Hlt|].
  destruct (first_zero_update_clamps 0.01 0 default_amplitude default_frequency false)
    as (Hlow & _).
  exact (Hlow Hlt).
Defined.

(** *** The zero-delta scenario from the default oscillator *)

Lemma scenario_inv_osc0 : scenario_inv osc0.
Proof.
  unfold scenario_inv. split; [apply reachable_constants, reach_init|].
  cbn. unfold default_amplitude, default_frequency. lra.
Qed.

Lemma scenario_step (s : t) :
  scenario_inv s ->
  let s' := fst (update s 0 0 0) in
  scenario_inv s' /\
  amplitude s' = 0.05 /\
  0.05 - current_amplitude s' = 0.7 * (0.05 - current_amplitude s) /\
  current_phase s' = pymod (current_phase s + 0.5 * 0.01) (2 * PI).
Proof.
  intros (Hc & Hdt & Hf & Ha & Hca).
  pose proof Hc as (Hamin & Hamax & Hfmin & Hfmax & _).
  assert (Hamp : amplitude (fst (update s 0 0 0)) = 0.05).
  { cbn. rewrite Hamin, Hamax, Rmult_0_l, Rplus_0_r. apply np_clip_below; lra. }
  assert (Hfreq : frequency (fst (update s 0 0 0)) = 0.5).
  { cbn. rewrite Hfmin, Hfmax, Hf, Rmult_0_l, Rplus_0_r. apply np_clip_inside; lra. }
  assert (Hcur : 0.05 - current_amplitude (fst (update s 0 0 0)) =
                 0.7 * (0.05 - current_amplitude s)).
  { cbn [fst update update_state current_amplitude].
    cbn [fst update update_state amplitude] in Hamp. rewrite Hamp, Hdt.
    unfold convergence_rate. lra. }
  cbn zeta. repeat split; try assumption; try (apply Hc).
  - lra.
  - lra.
  - cbn [fst update update_state current_phase].
    cbn [fst update update_state frequency] in Hfreq. rewrite Hfreq, Hdt. reflexivity.
Qed.

Lemma run_zero_S (n : nat) (s : t) :
  run_zero (S n) s = fst (update (run_zero n s) 0 0 0).
Proof. reflexivity. Qed.

Lemma scenario_inv_run (n : nat) : scenario_inv (run_zero n osc0).
Proof.
  induction n as [|n IH].
  - apply scenario_inv_osc0.
  - rewrite run_zero_S. apply (scenario_step _ IH).
Qed.

(** After at least one update the distance is what is left below 0.05. *)
Lemma amp_dist_run_S (n : nat) :
  amp_dist (run_zero (S n) osc0) = 0.05 - current_amplitude (run_zero (S n) osc0) /\
  0 < 0.05 - current_amplitude (run_zero (S n) osc0).
Proof.
  destruct (scenario_step _ (scenario_inv_run n)) as (Hinv & Hamp & _).
  destruct Hinv as (_ & _ & _ & _ & Hca).
  rewrite <- run_zero_S in Hamp, Hca.
  unfold amp_dist. rewrite Hamp, Rabs_left by lra. lra.
Qed.

(** C7, as stated, fails at the first step: the oscillator starts with
    distance 0 between [current_amplitude] and [amplitude], and the first
    zero-delta update, which clamps the target from 0.01 to 0.05, leaves
    distance 0.028. *)
Lemma amp_dist_first_step_grows :
  amp_dist (run_zero 0 osc0) = 0 /\
  amp_dist (run_zero 1 osc0) = 0.028 /\
  ~ (amp_dist (run_zero 1 osc0) < amp_dist (run_zero 0 osc0)).
Proof.
  assert (H0 : amp_dist (run_zero 0 osc0) = 0).
  { unfold amp_dist. cbn. rewrite Rminus_diag. apply Rabs_R0. }
  assert (H1 : amp_dist (run_zero 1 osc0) = 0.028).
  { destruct (amp_dist_run_S 0) as [Hd _]. rewrite Hd.
    destruct (scenario_step _ scenario_inv_osc0) as (_ & _ & Hcur & _).
    change (run_zero 1 osc0) with (fst (update osc0 0 0 0)).
    rewrite Hcur. cbn. unfold default_amplitude. lra. }
  repeat split; try assumption. rewrite H0, H1. lra.
Qed.

(** C7 (amended). From [CPG(dt=0.01, phase=0, amplitude=0.01,
    frequency=0.5)] under zero deltas, the first update takes the distance
    |current_amplitude - amplitude| from 0 to 0.028, and at every later step
    the distance strictly decreases (it is multiplied by 0.7); at every step
    current_phase becomes (current_phase + 0.5 * 0.01) mod 2 pi, so after n
    steps it is (n * 0.005) mod 2 pi. *)
Theorem zero_delta_scenario :
  amp_dist (run_zero 0 osc0) < amp_dist (run_zero 1 osc0) /\
  (forall n : nat,
     amp_dist (run_zero (S (S n)) osc0) = 0.7 * amp_dist (run_zero (S n) osc0) /\
     amp_dist (run_zero (S (S n)) osc0) < amp_dist (run_zero (S n) osc0)) /\
  (forall n : nat,
     current_phase (run_zero (S n) osc0) =
       pymod (current_phase (run_zero n osc0) + 0.5 * 0.01) (2 * PI)) /\
  (forall n : nat,
     current_phase (run_zero n osc0) = pymod (INR n * (0.5 * 0.01)) (2 * PI)).
Proof.
  assert (Hstep : forall n : nat,
     current_phase (run_zero (S n) osc0) =
       pymod (current_phase (run_zero n osc0) + 0.5 * 0.01) (2 * PI)).
  { intros n. rewrite run_zero_S.
    apply (scenario_step _ (scenario_inv_run n)). }
  split; [|split; [|split]].
  - destruct (amp_dist_run_S 0) as [Hd Hpos]. rewrite Hd.
    replace (amp_dist (run_zero 0 osc0)) with 0; [exact Hpos|].
    unfold amp_dist. cbn. rewrite Rminus_diag. symmetry. apply Rabs_R0.
  - intros n.
    destruct (amp_dist_run_S n) as [Hd Hpos].
    destruct (amp_dist_run_S (S n)) as [Hd' _].
    destruct (scenario_step _ (scenario_inv_run (S n))) as (_ & _ & Hcur & _).
    rewrite <- run_zero_S in Hcur.
    rewrite Hd', Hd, Hcur. split; lra.
  - exact Hstep.
  - induction n as [|n IH].
    + change (current_phase (run_zero 0 osc0)) with 0.
      change (INR 0) with 0.
      rewrite Rmult_0_l, pymod_small; [reflexivity|].
      pose proof two_pi_pos. lra.
    + rewrite Hstep, IH, pymod_pymod_plus by apply two_pi_pos.
      f_equal. rewrite S_INR. ring.
Qed.


(** A zero-delta [update] leaves targets that are inside the range alone. *)
Lemma zero_update_in_range (s : t) :
  reachable s ->
  0.05 <= amplitude s <= 0.35 -> 0.1 <= frequency s <= 3.0 ->
  amplitude (fst (update s 0 0 0)) = amplitude s /\
  frequency (fst (update s 0 0 0)) = frequency s.
Proof.
  intros Hs Ha Hf. apply reachable_constants in Hs.
  destruct Hs as (Hamin & Hamax & Hfmin & Hfmax & _).
  cbn. rewrite Hamin, Hamax, Hfmin, Hfmax, !Rmult_0_l, !Rplus_0_r.
  split; apply np_clip_inside; assumption.
Qed.

End CPGFacts.

(** ** The training loop: buffer bound and update trigger *)

Module TrainerFacts.
Import Tensor LearningAgent.

Local Open Scope nat_scope.

Lemma mod_pred_succ (t rs : nat) :
  0 < rs -> 1 <= t ->
  (t - 1) mod rs + 1 <= rs /\
  (t mod rs = 0 <-> (t - 1) mod rs + 1 = rs) /\
  (t mod rs <> 0 -> t mod rs = (t - 1) mod rs + 1).
Proof.
  intros Hrs Ht.
  pose proof (Nat.mod_upper_bound (t - 1) rs ltac:(lia)) as Hr.
  pose proof (Nat.div_mod_eq (t - 1) rs) as Hdm.
  set (q := (t - 1) / rs) in *. set (r := (t - 1) mod rs) in *.
  destruct (Nat.eq_dec (r + 1) rs) as [Heq | Hne].
  - assert (Hz : 0 = t mod rs).
    { apply (Nat.mod_unique t rs (q + 1) 0); [lia|]. nia. }
    split; [lia|]. split; [intuition lia|]. intros Hnz. lia.
  - assert (Hs : r + 1 = t mod rs).
    { apply (Nat.mod_unique t rs q (r + 1)); [lia|]. nia. }
    split; [lia|]. split; [lia|]. intros _. lia.
Qed.

Section Loop.
Variable hp : hyper.
Hypothesis rollout_pos : 0 < rollout_steps hp.
Hypothesis rollout_divides : max_timestep hp mod rollout_steps hp = 0.

Lemma trigger_spec (s : state) :
  st_pc s = PcTrigger -> loop_inv hp s ->
  trigger hp (st_done s) (st_timestep s) = Some (spec_update_due hp s).
Proof.
  intros Hpc Hinv. unfold loop_inv in Hinv. unfold spec_update_due, trigger.
  rewrite Hpc in *. destruct Hinv as [Ht Hlen].
  destruct (st_done s); [reflexivity|].
  destruct (Nat.eqb_spec (rollout_steps hp) 0) as [H0|_]; [lia|].
  cbn [orb]. f_equal.
  destruct (mod_pred_succ (st_timestep s) (rollout_steps hp) rollout_pos ltac:(lia))
    as (_ & Hiff & _).
  destruct (Nat.eqb_spec (st_timestep s mod rollout_steps hp) 0);
    destruct (Nat.eqb_spec (length (episode_buffer s)) (rollout_steps hp));
    try reflexivity; exfalso; intuition lia.
Qed.

Lemma loop_inv_step (s s' : state) (tr : Transition) :
  loop_inv hp s -> step hp s tr = Some s' -> loop_inv hp s'.
Proof.
  intros Hinv Hstep.
  pose proof (trigger_spec s) as Htrig.
  unfold step in Hstep. unfold loop_inv in Hinv.
  destruct (st_pc s) eqn:Hpc.
  - destruct (st_ep s <? episode_num hp); inversion Hstep; subst s'; clear Hstep;
      unfold loop_inv; cbn.
    + rewrite Hinv. cbn. split; [lia|]. symmetry. apply Nat.Div0.mod_0_l.
    + exact Hinv.
  - destruct Hinv as [Ht Hbuf].
    destruct (st_done s) eqn:Hdone; cbn [negb andb] in Hstep.
    + inversion Hstep; subst s'. unfold loop_inv; cbn. exact Hbuf.
    + destruct (Nat.ltb_spec (st_timestep s) (max_timestep hp)) as [Hlt|Hge];
        inversion Hstep; subst s'; clear Hstep; unfold loop_inv; cbn.
      * split; [lia|]. rewrite length_app, Hbuf. cbn.
        replace (st_timestep s + 1 - 1) with (st_timestep s) by lia. reflexivity.
      * assert (Heq : st_timestep s = max_timestep hp) by lia.
        rewrite Heq, rollout_divides in Hbuf.
        destruct (episode_buffer s); [reflexivity|discriminate].
  - rewrite (Htrig eq_refl) in Hstep
      by (unfold loop_inv; rewrite Hpc; exact Hinv).
    cbn [bind] in Hstep. unfold spec_update_due in Hstep. rewrite Hpc in Hstep.
    destruct Hinv as [Ht Hlen].
    destruct (mod_pred_succ (st_timestep s) (rollout_steps hp) rollout_pos ltac:(lia))
      as (_ & Hiff & Hnz).
    destruct (st_done s) eqn:Hdone; cbn [orb] in Hstep.
    + inversion Hstep; subst s'. unfold loop_inv; cbn.
      split; [lia|reflexivity].
    + destruct (Nat.eqb_spec (length (episode_buffer s)) (rollout_steps hp)) as [Hfull|Hnot];
        inversion Hstep; subst s'; clear Hstep; unfold loop_inv; cbn.
      * split; [lia|]. cbn. symmetry. apply Hiff. lia.
      * split; [lia|]. rewrite Hlen. symmetry. apply Hnz. intros Hz.
        apply Hnot. rewrite Hlen. apply Hiff, Hz.
  - inversion Hstep; subst s'. unfold loop_inv. rewrite Hpc. exact Hinv.
Qed.

Lemma reachable_loop_inv (s : state) : reachable hp s -> loop_inv hp s.
Proof.
  induction 1 as [|s tr s' Hs IH Hstep].
  - reflexivity.
  - exact (loop_inv_step s s' tr IH Hstep).
Qed.

Lemma loop_inv_bound (s : state) :
  loop_inv hp s -> length (episode_buffer s) <= rollout_steps hp.
Proof.
  unfold loop_inv. destruct (st_pc s).
  - intros ->. cbn. lia.
  - intros [_ Hbuf]. destruct (st_done s).
    + rewrite Hbuf. cbn. lia.
    + rewrite Hbuf. pose proof (Nat.mod_upper_bound (st_timestep s) (rollout_steps hp)). lia.
  - intros [Ht Hlen]. rewrite Hlen.
    apply (mod_pred_succ (st_timestep s) (rollout_steps hp) rollout_pos). lia.
  - intros ->. cbn. lia.
Qed.

(** What one move does to the buffer and to the record of update calls. *)
Lemma step_effect (s : state) (tr : Transition) :
  loop_inv hp s ->
  exists s', step hp s tr = Some s' /\
    if spec_update_due hp s
    then update_calls s' = update_calls s ++ [episode_buffer s] /\
         episode_buffer s' = []
    else update_calls s' = update_calls s /\
         (episode_buffer s' = episode_buffer s \/
          episode_buffer s' = episode_buffer s ++ [tr]).
Proof.
  intros Hinv. pose proof (trigger_spec s) as Htrig.
  unfold step. unfold spec_update_due in *.
  destruct (st_pc s) eqn:Hpc.
  - destruct (st_ep s <? episode_num hp); eexists; split; try reflexivity; cbn; auto.
  - destruct (negb (st_done s) && (st_timestep s <? max_timestep hp));
      eexists; split; try reflexivity; cbn; auto.
  - rewrite (Htrig eq_refl Hinv). cbn [bind].
    destruct (st_done s || (length (episode_buffer s) =? rollout_steps hp));
      eexists; split; try reflexivity; cbn; auto.
  - eexists; split; [reflexivity|]. auto.
Qed.

End Loop.

(** C4. With rollout_steps = 100 and max_timestep = 1000, in every reachable
    state of [run] the buffer holds at most rollout_steps transitions; the
    next move never raises, it calls [update_network] on the buffer and then
    empties the buffer exactly when the state is just after a step in which
    the episode terminated or the buffer reached rollout_steps transitions,
    and otherwise leaves the record of updates alone and at most appends the
    new transition. *)
Theorem buffer_bound_and_trigger (hp : hyper) (s : state) (tr : Transition) :
  rollout_steps hp = 100 -> max_timestep hp = 1000 ->
  reachable hp s ->
  length (episode_buffer s) <= rollout_steps hp /\
  exists s', step hp s tr = Some s' /\
    if spec_update_due hp s
    then update_calls s' = update_calls s ++ [episode_buffer s] /\
         episode_buffer s' = []
    else update_calls s' = update_calls s /\
         (episode_buffer s' = episode_buffer s \/
          episode_buffer s' = episode_buffer s ++ [tr]).
Proof.
  intros Hrs Hmax Hreach.
  assert (Hpos : 0 < rollout_steps hp) by lia.
  assert (Hdiv : max_timestep hp mod rollout_steps hp = 0)
    by (rewrite Hrs, Hmax; reflexivity).
  pose proof (reachable_loop_inv hp Hpos Hdiv s Hreach) as Hinv.
  split.
  - apply loop_inv_bound; assumption.
  - apply step_effect; assumption.
Qed.

Lemma buffer_bound_and_trigger_witness :
  let tr := {| obs := []; action := []; reward := 1; log_prob := 0;
               state_value := 0; next_state_value := 0; done := true |} in
  let s := {| st_pc := PcTrigger; st_ep := 0; st_timestep := 1; st_done := true;
              st_global_step := 1; episode_buffer := [tr]; update_calls := [] |} in
  reachable init_hyper s /\
  spec_update_due init_hyper s = true /\
  exists s', step init_hyper s tr = Some s' /\
             update_calls s' = [[tr]] /\ episode_buffer s' = [].
Proof.
  cbn zeta.
  set (tr := {| obs := []; action := []; reward := 1%R; log_prob := 0%R;
                state_value := 0%R; next_state_value := 0%R; done := true |}).
  set (s := {| st_pc := PcTrigger; st_ep := 0; st_timestep := 1; st_done := true;
               st_global_step := 1; episode_buffer := [tr]; update_calls := [] |}).
  assert (Hreach : reachable init_hyper s).
  { apply (reach_step init_hyper
             {| st_pc := PcLoopHead; st_ep := 0; st_timestep := 0; st_done := false;
                st_global_step := 0; episode_buffer := []; update_calls := [] |}
             tr s).
    - apply (reach_step init_hyper init_state tr); [apply reach_init | reflexivity].
    - reflexivity. }
  split; [exact Hreach|]. split; [reflexivity|].
  destruct (buffer_bound_and_trigger init_hyper s tr eq_refl eq_refl Hreach)
    as (_ & s' & Hstep & Hcalls & Hbuf).
  exists s'. split; [exact Hstep|]. split; [exact Hcalls | exact Hbuf].
Defined.

End TrainerFacts.

(** ** The advantage estimator and the surrogate loss *)

Module EstimatorFacts.
Import Tensor LearningAgent.

Lemma broadcast2_same_length (f : R -> R -> R) (a b : tensor) :
  length a = length b -> broadcast2 f a b = Some (map2 f a b).
Proof.
  intros Hlen. unfold broadcast2. rewrite Hlen, Nat.eqb_refl. reflexivity.
Qed.

Lemma length_map2 (f : R -> R -> R) (a b : tensor) :
  length a = length b -> length (map2 f a b) = length a.
Proof.
  revert b. induction a as [|x a IH]; intros [|y b] Hlen; cbn in *;
    try discriminate; try reflexivity.
  f_equal. apply IH. lia.
Qed.

Lemma nth_map2 (f : R -> R -> R) (a b : tensor) (i : nat) :
  length a = length b -> (i < length a)%nat ->
  nth i (map2 f a b) 0 = f (nth i a 0) (nth i b 0).
Proof.
  revert b i. induction a as [|x a IH]; intros [|y b] i Hlen Hi; cbn in *;
    try discriminate; try lia.
  destruct i as [|i]; [reflexivity|]. apply IH; lia.
Qed.

Lemma nth_map_lt (f : R -> R) (l : tensor) (i : nat) :
  (i < length l)%nat -> nth i (map f l) 0 = f (nth i l 0).
Proof.
  intros Hi. rewrite (nth_indep (map f l) 0 (f 0)) by (rewrite length_map; exact Hi).
  apply map_nth.
Qed.

Lemma nth_map_seq (f : nat -> R) (n i : nat) :
  (i < n)%nat -> nth i (map f (seq 0 n)) 0 = f i.
Proof.
  intros Hi. rewrite (nth_indep _ 0 (f 0%nat)) by (rewrite length_map, length_seq; exact Hi).
  rewrite map_nth, seq_nth by exact Hi. reflexivity.
Qed.

(** A tensor is the list of its entries. *)
Lemma tensor_by_index (l : tensor) (f : nat -> R) :
  (forall i, (i < length l)%nat -> nth i l 0 = f i) ->
  l = map f (seq 0 (length l)).
Proof.
  intros Hnth. apply (nth_ext _ _ 0 0).
  - rewrite length_map, length_seq. reflexivity.
  - intros i Hi. rewrite nth_map_seq by exact Hi. apply Hnth, Hi.
Qed.

Lemma skipn_nth_error (l : tensor) (k : nat) :
  (k < length l)%nat ->
  getitem l k = Some (nth k l 0) /\ skipn k l = nth k l 0 :: skipn (S k) l.
Proof.
  revert k. induction l as [|x l IH]; intros k Hk; cbn in Hk; [lia|].
  destruct k as [|k]; [split; reflexivity|].
  destruct (IH k ltac:(lia)) as [Hget Hskip]. split; [exact Hget|exact Hskip].
Qed.

Lemma setitem_app (pre suf : tensor) (x v : R) :
  setitem (pre ++ x :: suf) (length pre) v = Some (pre ++ v :: suf).
Proof.
  induction pre as [|y pre IH]; cbn; [reflexivity|]. rewrite IH. reflexivity.
Qed.

Lemma index_select_nth (t : tensor) (idx : list nat) :
  Forall (fun i => (i < length t)%nat) idx ->
  index_select t idx = Some (map (fun i => nth i t 0) idx).
Proof.
  induction 1 as [|i idx Hi _ IH]; cbn; [reflexivity|].
  destruct (skipn_nth_error t i Hi) as [Hget _]. rewrite Hget, IH. reflexivity.
Qed.

(** The loop invariant of [compute_advantages]: with the indices [k..n-1]
    done, the carry is the advantage at [k] (0 when [k = n]) and the tensor
    holds zeros below [k] and the finished advantages from [k] on. *)
Lemma gae_loop_backward (hp : hyper) (deltas dones : tensor) (k : nat) :
  length dones = length deltas -> (k <= length deltas)%nat ->
  let suffix := backward hp (skipn k deltas) (skipn k dones) in
  gae_loop hp deltas dones (rev (seq 0 k)) (hd 0 suffix) (repeat 0 k ++ suffix)
  = Some (backward hp deltas dones).
Proof.
  intros Hlen. induction k as [|k IH]; intros Hk; cbn zeta.
  - reflexivity.
  - rewrite seq_S, rev_app_distr. cbn [rev app Nat.add gae_loop].
    destruct (skipn_nth_error deltas k ltac:(lia)) as [Hgd Hsd].
    destruct (skipn_nth_error dones k ltac:(lia)) as [Hgn Hsn].
    rewrite Hgd, Hgn. cbn [bind].
    set (suffix := backward hp (skipn (S k) deltas) (skipn (S k) dones)).
    replace (repeat 0 (S k) ++ suffix) with (repeat 0 k ++ 0 :: suffix).
    2:{ change (repeat 0 (S k)) with (0 :: repeat 0 k).
        rewrite repeat_cons, <- app_assoc. reflexivity. }
    pose proof (setitem_app (repeat 0 k) suffix 0
                  (nth k deltas 0 + gamma hp * lam hp * (1 - nth k dones 0) * hd 0 suffix))
      as Hset.
    rewrite repeat_length in Hset. rewrite Hset. cbn [bind].
    specialize (IH ltac:(lia)). cbn zeta in IH.
    rewrite Hsd, Hsn in IH. cbn [backward] in IH. fold suffix in IH.
    exact IH.
Qed.

Lemma gae_loop_full (hp : hyper) (deltas dones : tensor) :
  length dones = length deltas ->
  gae_loop hp deltas dones (rev (seq 0 (length deltas))) 0 (repeat 0 (length deltas))
  = Some (backward hp deltas dones).
Proof.
  intros Hlen.
  pose proof (gae_loop_backward hp deltas dones (length deltas) Hlen (le_n _)) as H.
  cbn zeta in H. rewrite skipn_all in H. cbn [backward hd] in H.
  rewrite app_nil_r in H. exact H.
Qed.

Lemma backward_spec (hp : hyper) (rs vs nvs ds : tensor) :
  length vs = length rs -> length nvs = length rs -> length ds = length rs ->
  backward hp
    (map2 Rminus (map2 Rplus rs (map2 Rmult (scale (gamma hp) nvs) (rsub 1 ds))) vs)
    ds
  = spec_advantages hp rs vs nvs ds.
Proof.
  revert vs nvs ds.
  induction rs as [|r rs IH]; intros [|v vs] [|nv nvs] [|d ds] Hv Hnv Hd;
    cbn in Hv, Hnv, Hd; try discriminate; [reflexivity|].
  cbn [scale rsub map map2 backward spec_advantages].
  fold (scale (gamma hp) nvs). fold (rsub 1 ds).
  rewrite IH by lia. unfold spec_delta. reflexivity.
Qed.

Lemma length_spec_advantages (hp : hyper) (rs vs nvs ds : tensor) :
  length vs = length rs -> length nvs = length rs -> length ds = length rs ->
  length (spec_advantages hp rs vs nvs ds) = length rs.
Proof.
  revert vs nvs ds.
  induction rs as [|r rs IH]; intros [|v vs] [|nv nvs] [|d ds] Hv Hnv Hd;
    cbn in Hv, Hnv, Hd; try discriminate; [reflexivity|].
  cbn. f_equal. apply IH; lia.
Qed.

Lemma nth_spec_advantages (hp : hyper) (rs vs nvs ds : tensor) (t : nat) :
  length vs = length rs -> length nvs = length rs -> length ds = length rs ->
  (t < length rs)%nat ->
  nth t (spec_advantages hp rs vs nvs ds) 0 =
    spec_delta hp (nth t rs 0) (nth t vs 0) (nth t nvs 0) (nth t ds 0)
    + gamma hp * lam hp * (1 - nth t ds 0)
      * nth (S t) (spec_advantages hp rs vs nvs ds) 0.
Proof.
  revert vs nvs ds t.
  induction rs as [|r rs IH]; intros [|v vs] [|nv nvs] [|d ds] t Hv Hnv Hd Ht;
    cbn in Hv, Hnv, Hd, Ht; try discriminate; try lia.
  destruct t as [|t].
  - cbn [spec_advantages nth].
    destruct (spec_advantages hp rs vs nvs ds); reflexivity.
  - cbn [spec_advantages]. cbn [nth]. apply IH; lia.
Qed.

Lemma compute_advantages_spec (hp : hyper) (rs vs nvs ds : tensor) :
  length vs = length rs -> length nvs = length rs -> length ds = length rs ->
  compute_advantages hp rs vs nvs ds = Some (spec_advantages hp rs vs nvs ds).
Proof.
  intros Hv Hnv Hd. unfold compute_advantages, mul, add, sub.
  assert (H1 : length (scale (gamma hp) nvs) = length (rsub 1 ds))
    by (unfold scale, rsub; rewrite !length_map; lia).
  rewrite (broadcast2_same_length _ _ _ H1). cbn [bind].
  assert (H2 : length rs = length (map2 Rmult (scale (gamma hp) nvs) (rsub 1 ds))).
  { rewrite length_map2 by exact H1. unfold scale. rewrite length_map. lia. }
  rewrite (broadcast2_same_length _ _ _ H2). cbn [bind].
  assert (H3 : length (map2 Rplus rs (map2 Rmult (scale (gamma hp) nvs) (rsub 1 ds)))
               = length vs).
  { rewrite length_map2 by exact H2. lia. }
  rewrite (broadcast2_same_length _ _ _ H3). cbn [bind].
  set (deltas := map2 Rminus _ vs).
  assert (Hdl : length deltas = length rs).
  { unfold deltas. rewrite length_map2 by exact H3. rewrite length_map2 by exact H2.
    reflexivity. }
  unfold zeros_like. rewrite <- Hdl.
  rewrite gae_loop_full by lia.
  unfold deltas. rewrite backward_spec by assumption. reflexivity.
Qed.

Lemma gae_returns_core (hp : hyper) (rs vs nvs ds : tensor) :
  length vs = length rs -> length nvs = length rs -> length ds = length rs ->
  exists normalized returns,
    advantages_and_returns hp rs vs nvs ds = Some (normalized, returns) /\
    length returns = length rs /\
    (forall t, (t < length rs)%nat ->
       nth t returns 0 = nth t (spec_advantages hp rs vs nvs ds) 0 + nth t vs 0).
Proof.
  intros Hv Hnv Hd.
  pose proof (compute_advantages_spec hp rs vs nvs ds Hv Hnv Hd) as Hca.
  pose proof (length_spec_advantages hp rs vs nvs ds Hv Hnv Hd) as Hla.
  unfold advantages_and_returns. rewrite Hca. cbn [bind]. unfold add.
  rewrite broadcast2_same_length by lia. cbn [bind].
  eexists. eexists. split; [reflexivity|]. split.
  - rewrite length_map2 by lia. exact Hla.
  - intros t Ht. apply nth_map2; lia.
Qed.

(** [update_network] on a buffer: the returns are the raw advantages of the
    buffer's sequences plus its state values. *)
Lemma prepare_update_returns (hp : hyper) (buf : list Transition) :
  let rs := map reward buf in
  let vs := map state_value buf in
  let nvs := map next_state_value buf in
  let ds := map (fun item => float_of_bool (done item)) buf in
  exists d, prepare_update hp buf = Some d /\
    ud_log_probs_old d = map log_prob buf /\
    length (ud_returns d) = length buf /\
    forall t, (t < length buf)%nat ->
      nth t (ud_returns d) 0 = nth t (spec_advantages hp rs vs nvs ds) 0 + nth t vs 0.
Proof.
  cbn zeta. unfold prepare_update.
  assert (Hv : length (map state_value buf) = length (map reward buf))
    by (rewrite !length_map; reflexivity).
  assert (Hnv : length (map next_state_value buf) = length (map reward buf))
    by (rewrite !length_map; reflexivity).
  assert (Hd : length (map (fun item => float_of_bool (done item)) buf)
               = length (map reward buf))
    by (rewrite !length_map; reflexivity).
  destruct (gae_returns_core hp _ _ _ _ Hv Hnv Hd)
    as (normalized & returns & Har & Hlen & Hnth).
  rewrite Har. cbn [bind]. eexists. split; [reflexivity|]. cbn.
  rewrite length_map in Hlen, Hnth. auto.
Qed.

(** C2. On reward, value, next-value and done sequences of one length,
    [compute_advantages] returns the tensor whose entry t is
    delta[t] + gamma * lambda * (1 - done[t]) * (entry t+1, or 0 past the
    end), where delta[t] = reward[t] + gamma * next_value[t] * (1 - done[t])
    - value[t]; this is the backward pass with carry 0.  The returns
    [update_network] builds, and every minibatch slice of them, are
    advantage[t] + value[t] with the advantages taken before
    normalisation. *)
Theorem gae_and_returns (hp : hyper) (rs vs nvs ds : tensor) :
  length vs = length rs -> length nvs = length rs -> length ds = length rs ->
  let adv := spec_advantages hp rs vs nvs ds in
  compute_advantages hp rs vs nvs ds = Some adv /\
  length adv = length rs /\
  (forall t, (t < length rs)%nat ->
     nth t adv 0 =
       (nth t rs 0 + gamma hp * nth t nvs 0 * (1 - nth t ds 0) - nth t vs 0)
       + gamma hp * lam hp * (1 - nth t ds 0) * nth (S t) adv 0) /\
  nth (length rs) adv 0 = 0 /\
  exists normalized returns,
    advantages_and_returns hp rs vs nvs ds = Some (normalized, returns) /\
    length returns = length rs /\
    (forall t, (t < length rs)%nat -> nth t returns 0 = nth t adv 0 + nth t vs 0) /\
    (forall batch_indices,
       Forall (fun i => (i < length rs)%nat) batch_indices ->
       index_select returns batch_indices =
         Some (map (fun i => nth i adv 0 + nth i vs 0) batch_indices)).
Proof.
  intros Hv Hnv Hd. cbn zeta.
  pose proof (compute_advantages_spec hp rs vs nvs ds Hv Hnv Hd) as Hca.
  pose proof (length_spec_advantages hp rs vs nvs ds Hv Hnv Hd) as Hla.
  split; [exact Hca|]. split; [exact Hla|].
  split.
  { intros t Ht. rewrite (nth_spec_advantages hp rs vs nvs ds t Hv Hnv Hd Ht).
    unfold spec_delta. reflexivity. }
  split.
  { apply nth_overflow. lia. }
  destruct (gae_returns_core hp rs vs nvs ds Hv Hnv Hd)
    as (normalized & returns & Har & Hlr & Hnth).
  exists normalized, returns.
  split; [exact Har|]. split; [exact Hlr|]. split; [exact Hnth|].
  intros idx Hidx. rewrite index_select_nth by (rewrite Hlr; exact Hidx).
  f_equal. apply map_ext_in. intros i Hi.
  rewrite Forall_forall in Hidx. apply Hnth, Hidx, Hi.
Qed.

Lemma gae_and_returns_witness :
  compute_advantages init_hyper [1; 1; 1] [0; 0; 0] [0; 0; 0] [0; 0; 1]
    = Some (spec_advantages init_hyper [1; 1; 1] [0; 0; 0] [0; 0; 0] [0; 0; 1]) /\
  nth 2 (spec_advantages init_hyper [1; 1; 1] [0; 0; 0] [0; 0; 0] [0; 0; 1]) 0 = 1.
Proof.
  destruct (gae_and_returns init_hyper [1; 1; 1] [0; 0; 0] [0; 0; 0] [0; 0; 1]
              eq_refl eq_refl eq_refl) as (Hca & _ & Hrec & Hend & _).
  split; [exact Hca|].
  rewrite (Hrec 2%nat ltac:(cbn; lia)).
  change (length [1; 1; 1]) with 3%nat in Hend. rewrite Hend.
  cbn. lra.
Defined.

(** The three-step scenario with rewards 1, values 0, done only at the end,
    gamma = 0.99 and lambda = 0.95. *)
Example gae_three_steps :
  compute_advantages init_hyper [1; 1; 1] [0; 0; 0] [0; 0; 0] [0; 0; 1]
    = Some [1 + 0.99 * 0.95 * (1 + 0.99 * 0.95 * 1); 1 + 0.99 * 0.95 * 1; 1].
Proof.
  rewrite compute_advantages_spec by reflexivity.
  cbn. unfold spec_delta. cbn. f_equal. repeat (f_equal; try lra).
Qed.

(** *** The surrogate loss *)

Lemma mean_by_index (l : tensor) (f : nat -> R) :
  (forall i, (i < length l)%nat -> nth i l 0 = f i) ->
  mean l = sum_upto (length l) f / INR (length l).
Proof.
  intros Hnth. unfold mean, sum_upto.
  rewrite <- (tensor_by_index l f Hnth). reflexivity.
Qed.

Lemma mse_loss_spec (values returns : tensor) :
  length returns = length values ->
  mse_loss values returns = Some (spec_value_loss values returns).
Proof.
  intros Hlen. unfold mse_loss, sub.
  rewrite broadcast2_same_length by lia. cbn [bind]. f_equal.
  unfold spec_value_loss.
  assert (Hl : length (map (fun x => x * x) (map2 Rminus values returns)) = length values).
  { rewrite length_map, length_map2 by lia. reflexivity. }
  rewrite <- Hl at 1 2.
  apply mean_by_index. intros i Hi. rewrite Hl in Hi.
  rewrite nth_map_lt by (rewrite length_map2 by lia; exact Hi).
  rewrite nth_map2 by lia. reflexivity.
Qed.

Lemma policy_loss_spec (hp : hyper) (lp lpo adv : tensor) :
  length lpo = length lp -> length adv = length lp ->
  let ratio := map exp (map2 Rminus lp lpo) in
  let surr1 := map2 Rmult ratio adv in
  let surr2 := map2 Rmult (clamp ratio (1.0 - epsilon hp) (1.0 + epsilon hp)) adv in
  length ratio = length lp /\
  - mean (map2 Rmin surr1 surr2) = spec_policy_loss hp lp lpo adv.
Proof.
  intros Hlpo Hadv. cbn zeta.
  set (ratio := map exp (map2 Rminus lp lpo)).
  assert (Hr : length ratio = length lp).
  { unfold ratio. rewrite length_map, length_map2 by lia. reflexivity. }
  assert (Hrn : forall i, (i < length lp)%nat -> nth i ratio 0 = spec_ratio lp lpo i).
  { intros i Hi. unfold ratio, spec_ratio.
    rewrite nth_map_lt by (rewrite length_map2 by lia; exact Hi).
    rewrite nth_map2 by lia. reflexivity. }
  assert (Hc : length (clamp ratio (1.0 - epsilon hp) (1.0 + epsilon hp)) = length lp).
  { unfold clamp. rewrite length_map. exact Hr. }
  assert (H1 : length (map2 Rmult ratio adv) = length lp)
    by (rewrite length_map2 by lia; exact Hr).
  assert (H2 : length (map2 Rmult (clamp ratio (1.0 - epsilon hp) (1.0 + epsilon hp)) adv)
               = length lp)
    by (rewrite length_map2 by lia; exact Hc).
  assert (Hm : length (map2 Rmin (map2 Rmult ratio adv)
                 (map2 Rmult (clamp ratio (1.0 - epsilon hp) (1.0 + epsilon hp)) adv))
               = length lp)
    by (rewrite length_map2 by lia; exact H1).
  split; [exact Hr|].
  unfold spec_policy_loss. f_equal. rewrite <- Hm at 1 2.
  apply mean_by_index. intros i Hi. rewrite Hm in Hi.
  rewrite nth_map2 by lia. rewrite !nth_map2 by lia.
  unfold clamp. rewrite nth_map_lt by lia. rewrite Hrn by exact Hi.
  unfold spec_surrogate. f_equal. f_equal. f_equal; lra.
Qed.

(** C3. On new and old log-probabilities and advantages of one length, and
    predicted values and returns of one length, [ppo_loss] returns
    policy_loss = -mean_i min(r_i * A_i, clip(r_i, 1-eps, 1+eps) * A_i) with
    r_i = exp(log_prob_new_i - log_prob_old_i), value_loss = the mean of
    (value_i - return_i)^2, and total_loss = policy_loss + 0.5 * value_loss
    - entropy_coef * mean(entropy). *)
Theorem ppo_loss_spec (hp : hyper) (lp lpo adv values returns entropy : tensor) :
  length lpo = length lp -> length adv = length lp ->
  length returns = length values ->
  ppo_loss hp lp lpo adv values returns entropy =
    Some (spec_policy_loss hp lp lpo adv + 0.5 * spec_value_loss values returns
            - entropy_coef hp * mean entropy,
          spec_policy_loss hp lp lpo adv,
          spec_value_loss values returns).
Proof.
  intros Hlpo Hadv Hret.
  destruct (policy_loss_spec hp lp lpo adv Hlpo Hadv) as [Hr Hpl].
  cbn zeta in Hr, Hpl.
  unfold ppo_loss, sub, mul, minimum.
  rewrite (broadcast2_same_length Rminus lp lpo) by lia. cbn [bind].
  set (ratio := map exp (map2 Rminus lp lpo)) in *.
  assert (Hc : length (clamp ratio (1.0 - epsilon hp) (1.0 + epsilon hp)) = length adv)
    by (unfold clamp; rewrite length_map; lia).
  rewrite (broadcast2_same_length Rmult ratio adv) by lia. cbn [bind].
  rewrite (broadcast2_same_length Rmult (clamp _ _ _) adv Hc). cbn [bind].
  rewrite (broadcast2_same_length Rmin)
    by (rewrite (length_map2 Rmult ratio adv) by lia;
        rewrite (length_map2 Rmult _ adv Hc); lia).
  cbn [bind]. rewrite (mse_loss_spec values returns Hret). cbn [bind].
  rewrite Hpl. reflexivity.
Qed.

Lemma ppo_loss_spec_witness :
  ppo_loss init_hyper [0; 0] [0; 0] [1; 3] [1; 2] [1.5; 2.5] [0; 0] =
    Some (spec_policy_loss init_hyper [0; 0] [0; 0] [1; 3]
            + 0.5 * spec_value_loss [1; 2] [1.5; 2.5]
            - entropy_coef init_hyper * mean [0; 0],
          spec_policy_loss init_hyper [0; 0] [0; 0] [1; 3],
          spec_value_loss [1; 2] [1.5; 2.5]) /\
  spec_value_loss [1; 2] [1.5; 2.5] = 0.25.
Proof.
  split.
  - apply (ppo_loss_spec init_hyper [0; 0] [0; 0] [1; 3] [1; 2] [1.5; 2.5] [0; 0]);
      reflexivity.
  - unfold spec_value_loss, sum_upto. cbn. lra.
Defined.

End EstimatorFacts.

(** ** Further properties of the oscillator *)

Module OscillatorMore.
Import CPG CPGFacts.

Lemma np_clip_step (a d lo hi : R) :
  lo <= a <= hi -> Rabs (np_clip (a + d) lo hi - a) <= Rabs d.
Proof.
  intros Ha. unfold np_clip, Rmin, Rmax.
  destruct (Rle_dec (a + d) lo); destruct (Rle_dec _ hi);
    unfold Rabs; repeat destruct (Rcase_abs _); lra.
Qed.

Lemma pymod_add_period (a m : R) (k : Z) :
  0 < m -> pymod (a + IZR k * m) m = pymod a m.
Proof.
  intros Hm. unfold pymod.
  assert (Hq : (a + IZR k * m) / m = a / m + IZR k) by (field; lra).
  rewrite Hq.
  assert (Hk : Int_part (a / m + IZR k) = (Int_part (a / m) + k)%Z).
  { symmetry. apply Int_part_spec. rewrite plus_IZR.
    destruct (base_Int_part (a / m)) as [Hlo Hhi]. lra. }
  rewrite Hk, plus_IZR. ring.
Qed.

Lemma pymod_idem (a m : R) : 0 < m -> pymod (pymod a m) m = pymod a m.
Proof. intros Hm. apply pymod_small, pymod_range, Hm. Qed.

Lemma targets_in_range_after_update (s : t) (da df dp : R) :
  reachable s ->
  0.05 <= amplitude (fst (update s da df dp)) <= 0.35 /\
  0.1 <= frequency (fst (update s da df dp)) <= 3.0.
Proof.
  intros Hs. apply reachable_constants in Hs.
  destruct Hs as (Hamin & Hamax & Hfmin & Hfmax & _).
  cbn. rewrite Hamin, Hamax, Hfmin, Hfmax.
  split; apply np_clip_bounds; lra.
Qed.

(** X1. The foot height stays between the stance line and the top of the swing:
    on a reachable oscillator [update] returns z in [-0.30, -0.20], and
    z = -0.30 exactly whenever sin(current_phase) <= 0. *)
Theorem foot_height_bounds (s : t) (da df dp : R) :
  reachable s ->
  let s' := fst (update s da df dp) in
  let z := snd (snd (update s da df dp)) in
  - 0.30 <= z <= - 0.20 /\
  (sin (current_phase s') <= 0 -> z = - 0.30).
Proof.
  intros Hs. pose proof (reachable_constants _ (reach_update s da df dp Hs)) as Hc.
  destruct Hc as (_ & _ & _ & _ & _ & _ & _ & Hh & Hgc & Hgp).
  cbn zeta. unfold update in *. cbn [fst snd] in *. unfold foot. cbn [fst snd].
  rewrite Hh, Hgc, Hgp.
  pose proof (SIN_bound (current_phase (update_state s da df dp))) as [_ Hle].
  destruct (Rlt_dec 0 (sin (current_phase (update_state s da df dp)))) as [Hpos|Hneg].
  - split; [lra|]. intros Hn. lra.
  - split; [lra|]. intros _. lra.
Qed.

Lemma foot_height_bounds_witness :
  reachable osc0 /\
  - 0.30 <= snd (snd (update osc0 1 1 1)) <= - 0.20.
Proof.
  split; [apply reach_init|].
  apply (foot_height_bounds osc0 1 1 1). apply reach_init.
Defined.

Lemma update_with_phase (s : t) (p da df dp dp' : R) :
  exists p', fst (update (with_phase s p) da df dp') = with_phase (fst (update s da df dp)) p' /\
             snd (update (with_phase s p) da df dp') = snd (update s da df dp).
Proof. eexists. split; reflexivity. Qed.

(** X2. The target phase is write-only: neither the stored target phase nor any
    phase delta influences a returned foot position, now or later. *)
Theorem phase_delta_is_inert (s : t) (p : R) (ds ds' : list (R * R * R)) :
  map drop_phase_delta ds' = map drop_phase_delta ds ->
  snd (run_updates (with_phase s p) ds') = snd (run_updates s ds).
Proof.
  revert s p ds'. induction ds as [|[[da df] dp] ds IH]; intros s p [|[[da' df'] dp'] ds'] Hmap;
    cbn in Hmap; try discriminate; [reflexivity|].
  injection Hmap as Ha Hf Hrest. subst da' df'.
  destruct (update_with_phase s p da df dp dp') as (p' & Hst & Hout).
  cbn [run_updates].
  rewrite (surjective_pairing (update (with_phase s p) da df dp')).
  rewrite (surjective_pairing (update s da df dp)).
  rewrite Hst, Hout.
  specialize (IH (fst (update s da df dp)) p' ds' Hrest).
  destruct (run_updates (with_phase (fst (update s da df dp)) p') ds') as [s2 out2].
  destruct (run_updates (fst (update s da df dp)) ds) as [s3 out3].
  cbn in IH |- *. rewrite IH. reflexivity.
Qed.

Lemma phase_delta_is_inert_witness :
  snd (run_updates (with_phase osc0 3) [(1, 1, 1); (0, 1, -1)])
  = snd (run_updates osc0 [(1, 1, 0); (0, 1, 0)]).
Proof.
  apply (phase_delta_is_inert osc0 3 [(1, 1, 0); (0, 1, 0)] [(1, 1, 1); (0, 1, -1)]).
  reflexivity.
Defined.

(** X3. One update moves an in-range target amplitude by at most 0.0015 times
    the size of the raw delta, and an in-range target frequency by at most
    0.0145 times the size of the raw delta. *)
Theorem target_step_bounded (s : t) (da df dp : R) :
  reachable s ->
  0.05 <= amplitude s <= 0.35 -> 0.1 <= frequency s <= 3.0 ->
  let s' := fst (update s da df dp) in
  Rabs (amplitude s' - amplitude s) <= 0.0015 * Rabs da /\
  Rabs (frequency s' - frequency s) <= 0.0145 * Rabs df.
Proof.
  intros Hs Ha Hf. apply reachable_constants in Hs.
  destruct Hs as (Hamin & Hamax & Hfmin & Hfmax & _).
  cbn. rewrite Hamin, Hamax, Hfmin, Hfmax. split.
  - eapply Rle_trans; [apply np_clip_step; exact Ha|].
    rewrite Rabs_mult, (Rabs_pos_eq ((0.35 - 0.05) * 0.005)) by lra. lra.
  - eapply Rle_trans; [apply np_clip_step; exact Hf|].
    rewrite Rabs_mult, (Rabs_pos_eq ((3.0 - 0.1) * 0.005)) by lra. lra.
Qed.

Lemma target_step_bounded_witness :
  let s := init 0.01 0 0.2 0.5 false in
  reachable s /\
  Rabs (amplitude (fst (update s 1 (-1) 0)) - amplitude s) <= 0.0015 * Rabs 1.
Proof.
  cbn zeta. split; [apply reach_init|].
  apply (target_step_bounded (init 0.01 0 0.2 0.5 false) 1 (-1) 0);
    [apply reach_init | cbn; lra | cbn; lra].
Defined.

(** X4. Once [update] has run, a zero-delta [update] leaves all three targets
    (amplitude, frequency, phase) as they are. *)
Theorem zero_update_fixes_targets (s : t) (da df dp : R) :
  reachable s ->
  let s1 := fst (update s da df dp) in
  let s2 := fst (update s1 0 0 0) in
  amplitude s2 = amplitude s1 /\ frequency s2 = frequency s1 /\
  phase s2 = phase s1 /\ 0 <= phase s1 < 2 * PI.
Proof.
  intros Hs. cbn zeta.
  destruct (targets_in_range_after_update s da df dp Hs) as (Ha & Hf).
  destruct (zero_update_in_range _ (reach_update s da df dp Hs) Ha Hf) as [Ha2 Hf2].
  split; [exact Ha2|]. split; [exact Hf2|].
  assert (Hp : 0 <= phase (fst (update s da df dp)) < 2 * PI)
    by (cbn; apply pymod_range, two_pi_pos).
  split; [|exact Hp].
  cbn [fst update update_state phase] in *.
  rewrite Rmult_0_l, Rplus_0_r. apply pymod_small. exact Hp.
Qed.

Lemma zero_update_fixes_targets_witness :
  reachable osc0 /\
  amplitude (fst (update (fst (update osc0 1 1 1)) 0 0 0))
    = amplitude (fst (update osc0 1 1 1)).
Proof.
  split; [apply reach_init|].
  apply (zero_update_fixes_targets osc0 1 1 1). apply reach_init.
Defined.

Lemma run_zero_keeps (s : t) (n : nat) :
  reachable s -> 0.05 <= amplitude s <= 0.35 ->
  reachable (run_zero n s) /\ amplitude (run_zero n s) = amplitude s /\
  dt (run_zero n s) = dt s.
Proof.
  intros Hs Ha. induction n as [|n (Hr & Hamp & Hdt)].
  - repeat split; [exact Hs].
  - rewrite run_zero_S.
    pose proof (reachable_constants _ Hr) as (Hamin & Hamax & _).
    split; [apply reach_update, Hr|]. split; [|exact Hdt].
    rewrite <- Hamp. cbn. rewrite Hamin, Hamax, Rmult_0_l, Rplus_0_r.
    apply np_clip_inside. rewrite Hamp. exact Ha.
Qed.

(** X5. First-order lag in closed form: with the target amplitude inside its
    range and zero deltas, n updates multiply the gap between
    [current_amplitude] and [amplitude] by (1 - 30 dt)^n. *)
Theorem smoothing_closed_form (s : t) (n : nat) :
  reachable s -> 0.05 <= amplitude s <= 0.35 ->
  current_amplitude (run_zero n s) - amplitude s =
    (1 - 30 * dt s) ^ n * (current_amplitude s - amplitude s) /\
  amp_dist (run_zero n s) = Rabs (1 - 30 * dt s) ^ n * amp_dist s.
Proof.
  intros Hs Ha.
  assert (Hgap : current_amplitude (run_zero n s) - amplitude s =
                 (1 - 30 * dt s) ^ n * (current_amplitude s - amplitude s)).
  { induction n as [|n IH].
    - cbn. ring.
    - destruct (run_zero_keeps s n Hs Ha) as (_ & Hamp & Hdt).
      destruct (run_zero_keeps s (S n) Hs Ha) as (_ & Hamp' & _).
      rewrite run_zero_S in *.
      cbn [fst update update_state current_amplitude amplitude] in *.
      rewrite Hamp', Hdt. unfold convergence_rate.
      replace (current_amplitude (run_zero n s)
               + 30.0 * (amplitude s - current_amplitude (run_zero n s)) * dt s
               - amplitude s)
        with ((1 - 30 * dt s) * (current_amplitude (run_zero n s) - amplitude s))
        by lra.
      rewrite IH. cbn [pow]. ring. }
  split; [exact Hgap|].
  destruct (run_zero_keeps s n Hs Ha) as (_ & Hamp & _).
  unfold amp_dist. rewrite Hamp, Hgap, Rabs_mult, RPow_abs. reflexivity.
Qed.

Lemma smoothing_closed_form_witness :
  let s := init 0.01 0 0.2 0.5 false in
  reachable s /\
  amp_dist (run_zero 5 s) = Rabs (1 - 30 * dt s) ^ 5 * amp_dist s.
Proof.
  cbn zeta. split; [apply reach_init|].
  apply (smoothing_closed_form (init 0.01 0 0.2 0.5 false) 5);
    [apply reach_init | cbn; lra].
Defined.

Lemma run_updates_cons (s : t) (da df dp : R) (ds : list (R * R * R)) :
  fst (run_updates s ((da, df, dp) :: ds)) = fst (run_updates (fst (update s da df dp)) ds) /\
  snd (run_updates s ((da, df, dp) :: ds)) =
    snd (update s da df dp) :: snd (run_updates (fst (update s da df dp)) ds).
Proof.
  cbn [run_updates].
  rewrite (surjective_pairing (update s da df dp)).
  cbn [fst snd].
  destruct (run_updates (fst (update s da df dp)) ds). split; reflexivity.
Qed.

(** X6. [reset] discards the whole history: whatever updates ran before it, the
    state after [reset] and every later foot position are those of a reset
    applied to the original oscillator. *)
Theorem reset_forgets_history (s : t) (before after : list (R * R * R)) (p a f : R) :
  reset (fst (run_updates s before)) p a f = reset s p a f /\
  snd (run_updates (reset (fst (run_updates s before)) p a f) after) =
    snd (run_updates (reset s p a f) after).
Proof.
  assert (Hst : reset (fst (run_updates s before)) p a f = reset s p a f).
  { revert s. induction before as [|[[da df] dp] before IH]; intros s.
    - reflexivity.
    - destruct (run_updates_cons s da df dp before) as [Hfst _].
      rewrite Hfst, IH. reflexivity. }
  split; [exact Hst|]. rewrite Hst. reflexivity.
Qed.

(** X7. With a step no longer than 1/30 the smoothed amplitude never leaves the
    range of its target, and the horizontal foot position stays within
    0.1425 of the hip. *)
Theorem smoothed_amplitude_in_range (s : t) (da df dp : R) :
  reachable s ->
  0 <= dt s <= 1 / 30 ->
  0.05 <= current_amplitude s <= 0.35 ->
  let s' := fst (update s da df dp) in
  0.05 <= current_amplitude s' <= 0.35 /\
  Rabs (fst (snd (update s da df dp))) <= 0.1425.
Proof.
  intros Hs Hdt Hca.
  destruct (targets_in_range_after_update s da df dp Hs) as [Ha _].
  pose proof (reachable_constants _ Hs) as (_ & _ & _ & _ & _ & _ & Hd & _).
  cbn zeta.
  assert (Hca' : 0.05 <= current_amplitude (fst (update s da df dp)) <= 0.35).
  { cbn [fst update update_state current_amplitude amplitude] in *.
    unfold convergence_rate.
    set (A := np_clip _ _ _) in *. set (c := current_amplitude s) in *.
    set (d := dt s) in *. split; nra. }
  split; [exact Hca'|].
  unfold update. cbn [fst snd]. unfold foot. cbn [fst snd].
  cbn [fst update] in Hca'.
  replace (d_step (update_state s da df dp)) with 0.150 by (symmetry; exact Hd).
  set (c := current_amplitude (update_state s da df dp)) in *.
  pose proof (COS_bound (current_phase (update_state s da df dp))) as [Hlo Hhi].
  set (k := cos _) in *.
  apply Rabs_le. split; nra.
Qed.

Lemma smoothed_amplitude_in_range_witness :
  let s := init 0.01 0 0.2 0.5 false in
  reachable s /\ 0 <= dt s <= 1 / 30 /\
  Rabs (fst (snd (update s 1 1 1))) <= 0.1425.
Proof.
  cbn zeta. split; [apply reach_init|]. split; [cbn; lra|].
  apply (smoothed_amplitude_in_range (init 0.01 0 0.2 0.5 false) 1 1 1);
    [apply reach_init | cbn; lra | cbn; lra].
Defined.

(** X8. Starting phases that differ by a whole number of turns give the same
    oscillator after the first [update]: the same state and the same foot
    position. *)
Theorem initial_phase_periodic (d p a f : R) (b : bool) (k : Z) (da df dp : R) :
  update (init d (p + IZR k * (2 * PI)) a f b) da df dp =
  update (init d p a f b) da df dp.
Proof.
  assert (Hst : update_state (init d (p + IZR k * (2 * PI)) a f b) da df dp =
                update_state (init d p a f b) da df dp).
  { unfold update_state. cbn [init dt amplitude frequency phase debug
      current_amplitude current_phase amplitude_min amplitude_max frequency_min
      frequency_max phase_min phase_max d_step h gc gp].
    f_equal.
    - replace (p + IZR k * (2 * PI) + dp * ((PI - - PI) * 0.005))
        with (p + dp * ((PI - - PI) * 0.005) + IZR k * (2 * PI)) by ring.
      apply pymod_add_period, two_pi_pos.
    - set (fr := np_clip _ _ _).
      replace (p + IZR k * (2 * PI) + fr * d) with (p + fr * d + IZR k * (2 * PI)) by ring.
      apply pymod_add_period, two_pi_pos. }
  unfold update. rewrite Hst. reflexivity.
Qed.

End OscillatorMore.

(** ** Further properties of the training loop *)

Module TrainerMore.
Import Tensor LearningAgent.

Local Open Scope nat_scope.

(** X9. No transition is lost or duplicated: the buffers handed to
    [update_network], in call order, followed by the current buffer, are
    exactly the transitions recorded so far, and [global_step] counts
    them. *)
Theorem transitions_conserved (hp : hyper) (s : state) (hist : list Transition) :
  reaches hp s hist ->
  concat (update_calls s) ++ episode_buffer s = hist /\
  st_global_step s = length hist.
Proof.
  induction 1 as [|s hist tr s' Hr [IHc IHg] Hstep].
  - split; reflexivity.
  - unfold step in Hstep. unfold appends.
    destruct (st_pc s) eqn:Hpc.
    + destruct (st_ep s <? episode_num hp); inversion Hstep; subst s'; cbn; auto.
    + destruct (negb (st_done s) && (st_timestep s <? max_timestep hp));
        inversion Hstep; subst s'; cbn; [|auto].
      rewrite app_assoc, IHc, length_app, IHg. cbn. split; reflexivity.
    + destruct (trigger hp (st_done s) (st_timestep s)) as [[|]|];
        cbn [bind] in Hstep; inversion Hstep; subst s'; cbn; [|auto].
      rewrite concat_app. cbn. rewrite !app_nil_r. auto.
    + inversion Hstep; subst s'. auto.
Qed.

Lemma transitions_conserved_witness :
  let tr := {| obs := []; action := []; reward := 1; log_prob := 0;
               state_value := 0; next_state_value := 0; done := false |} in
  exists s, reaches init_hyper s [tr] /\
            concat (update_calls s) ++ episode_buffer s = [tr].
Proof.
  cbn zeta.
  set (tr := {| obs := []; action := []; reward := 1%R; log_prob := 0%R;
                state_value := 0%R; next_state_value := 0%R; done := false |}).
  set (s1 := {| st_pc := PcLoopHead; st_ep := 0; st_timestep := 0; st_done := false;
                st_global_step := 0; episode_buffer := []; update_calls := [] |}).
  set (s2 := {| st_pc := PcTrigger; st_ep := 0; st_timestep := 1; st_done := false;
                st_global_step := 1; episode_buffer := [tr]; update_calls := [] |}).
  assert (H1 : reaches init_hyper s1 []).
  { exact (reaches_step init_hyper init_state [] tr s1 (reaches_init init_hyper) eq_refl). }
  assert (H2 : reaches init_hyper s2 [tr]).
  { exact (reaches_step init_hyper s1 [] tr s2 H1 eq_refl). }
  exists s2. split; [exact H2|].
  apply (transitions_conserved init_hyper s2 [tr] H2).
Defined.

(** What holds at the program points as far as empty buffers go. *)
Lemma nonempty_inv (hp : hyper) (s : state) :
  reachable hp s ->
  (st_pc s = PcTrigger -> episode_buffer s <> []) /\
  Forall (fun b => b <> []) (update_calls s).
Proof.
  induction 1 as [|s tr s' Hr [IHt IHc] Hstep].
  - split; [discriminate|constructor].
  - unfold step in Hstep. destruct (st_pc s) eqn:Hpc.
    + destruct (st_ep s <? episode_num hp); inversion Hstep; subst s'; cbn;
        split; try discriminate; exact IHc.
    + destruct (negb (st_done s) && (st_timestep s <? max_timestep hp));
        inversion Hstep; subst s'; cbn; split; try discriminate; try exact IHc.
      intros _ Hnil. apply app_eq_nil in Hnil. destruct Hnil; discriminate.
    + destruct (trigger hp (st_done s) (st_timestep s)) as [[|]|];
        cbn [bind] in Hstep; inversion Hstep; subst s'; cbn;
        split; try discriminate; try exact IHc.
      apply Forall_app. split; [exact IHc|]. constructor; [|constructor].
      apply IHt. reflexivity.
    + inversion Hstep; subst s'. split; [rewrite Hpc; discriminate|exact IHc].
Qed.

(** X10. [update_network] is never called on an empty buffer, whatever the
    hyperparameters. *)
Theorem update_never_on_empty (hp : hyper) (s : state) :
  reachable hp s -> Forall (fun b => b <> []) (update_calls s).
Proof. intros Hr. apply (nonempty_inv hp s Hr). Qed.

Lemma reachable_after_first_update :
  let tr := {| obs := []; action := []; reward := 1; log_prob := 0;
               state_value := 0; next_state_value := 0; done := true |} in
  reachable init_hyper
    {| st_pc := PcLoopHead; st_ep := 0; st_timestep := 1; st_done := true;
       st_global_step := 1; episode_buffer := []; update_calls := [[tr]] |}.
Proof.
  cbn zeta.
  set (tr := {| obs := []; action := []; reward := 1%R; log_prob := 0%R;
                state_value := 0%R; next_state_value := 0%R; done := true |}).
  apply (reach_step init_hyper
           {| st_pc := PcTrigger; st_ep := 0; st_timestep := 1; st_done := true;
              st_global_step := 1; episode_buffer := [tr]; update_calls := [] |} tr);
    [|reflexivity].
  apply (reach_step init_hyper
           {| st_pc := PcLoopHead; st_ep := 0; st_timestep := 0; st_done := false;
              st_global_step := 0; episode_buffer := []; update_calls := [] |} tr);
    [|reflexivity].
  apply (reach_step init_hyper init_state tr); [apply reach_init | reflexivity].
Defined.

Lemma update_never_on_empty_witness :
  let tr := {| obs := []; action := []; reward := 1; log_prob := 0;
               state_value := 0; next_state_value := 0; done := true |} in
  Forall (fun b : list Transition => b <> []) [[tr]].
Proof.
  cbn zeta.
  exact (update_never_on_empty init_hyper _ reachable_after_first_update).
Defined.

(** X11. When [rollout_steps] is positive and divides [max_timestep], every
    buffer handed to [update_network] holds at most [rollout_steps]
    transitions. *)
Theorem update_batches_bounded (hp : hyper) (s : state) :
  0 < rollout_steps hp -> max_timestep hp mod rollout_steps hp = 0 ->
  reachable hp s ->
  Forall (fun b => length b <= rollout_steps hp) (update_calls s).
Proof.
  intros Hpos Hdiv. induction 1 as [|s tr s' Hr IH Hstep].
  - constructor.
  - assert (Hb : length (episode_buffer s) <= rollout_steps hp).
    { apply TrainerFacts.loop_inv_bound; try assumption.
      apply TrainerFacts.reachable_loop_inv; assumption. }
    unfold step in Hstep. destruct (st_pc s) eqn:Hpc.
    + destruct (st_ep s <? episode_num hp); inversion Hstep; subst s'; exact IH.
    + destruct (negb (st_done s) && (st_timestep s <? max_timestep hp));
        inversion Hstep; subst s'; exact IH.
    + destruct (trigger hp (st_done s) (st_timestep s)) as [[|]|];
        cbn [bind] in Hstep; inversion Hstep; subst s'; cbn; [|exact IH].
      apply Forall_app. split; [exact IH|]. constructor; [exact Hb|constructor].
    + inversion Hstep; subst s'. exact IH.
Qed.

Lemma update_batches_bounded_witness :
  let tr := {| obs := []; action := []; reward := 1; log_prob := 0;
               state_value := 0; next_state_value := 0; done := true |} in
  Forall (fun b : list Transition => length b <= rollout_steps init_hyper) [[tr]].
Proof.
  cbn zeta.
  refine (update_batches_bounded init_hyper _ _ _ reachable_after_first_update).
  - cbn. lia.
  - reflexivity.
Defined.







Lemma first_episode_inv_step (hp : hyper) (s s' : state) (tr : Transition) :
  0 < rollout_steps hp ->
  first_episode_inv hp s -> step hp s tr = Some s' -> first_episode_inv hp s'.
Proof.
  intros Hpos [H0 H1] Hstep. unfold step in Hstep. unfold first_episode_inv.
  destruct (st_pc s) eqn:Hpc.
  - destruct (st_ep s <? episode_num hp); inversion Hstep; subst s'; clear Hstep; cbn.
    + split; [|discriminate]. intros He. rewrite (H0 He). cbn.
      split; [lia|]. intros _. symmetry. apply Nat.Div0.mod_0_l.
    + split; [auto|discriminate].
  - destruct (st_done s) eqn:Hdone; cbn [negb andb] in Hstep.
    + inversion Hstep; subst s'; clear Hstep; cbn. split; [lia|].
      intros _ _ Hd. discriminate.
    + destruct (Nat.ltb_spec (st_timestep s) (max_timestep hp)) as [Hlt|Hge];
        inversion Hstep; subst s'; clear Hstep; cbn.
      * split; [|discriminate]. intros He. destruct (H0 He) as [Ht Hbuf].
        split; [lia|]. rewrite length_app, (Hbuf eq_refl). cbn.
        replace (st_timestep s + 1 - 1) with (st_timestep s) by lia. reflexivity.
      * split; [lia|]. intros He _ _.
        destruct (H0 ltac:(lia)) as [Ht Hbuf].
        rewrite (Hbuf eq_refl). f_equal. lia.
  - unfold trigger in Hstep.
    destruct (st_done s) eqn:Hdone; cbn [bind] in Hstep.
    + inversion Hstep; subst s'; clear Hstep; cbn. split; [|discriminate].
      intros He. destruct (H0 He) as [Ht _]. split; [lia|]. discriminate.
    + destruct (Nat.eqb_spec (rollout_steps hp) 0) as [Hz|_]; [lia|].
      cbn [bind] in Hstep.
      destruct (Nat.eqb_spec (st_timestep s mod rollout_steps hp) 0) as [Hfire|Hno];
        inversion Hstep; subst s'; clear Hstep; cbn; (split; [|discriminate]);
        intros He; destruct (H0 He) as [Ht Hlen]; (split; [lia|]); intros _.
      * cbn. symmetry. exact Hfire.
      * rewrite Hlen. symmetry.
        apply (TrainerFacts.mod_pred_succ (st_timestep s) (rollout_steps hp) Hpos); [lia|exact Hno].
  - inversion Hstep; subst s'. split; [intros _; rewrite Hpc; exact I|].
    intros _ Hc. rewrite Hpc in Hc. discriminate.
Qed.

(** X25. The buffer is not emptied when [max_timestep] cuts an episode: if
    the environment never ended the first episode, the buffer still holds
    max_timestep mod rollout_steps transitions when the second episode is
    about to start. *)
Theorem first_episode_leftover (hp : hyper) (s : state) :
  0 < rollout_steps hp ->
  reachable hp s ->
  st_pc s = PcEpisode -> st_ep s = 1 -> st_done s = false ->
  length (episode_buffer s) = max_timestep hp mod rollout_steps hp.
Proof.
  intros Hpos Hr.
  assert (Hinv : first_episode_inv hp s).
  { induction Hr as [|s tr s' Hr IH Hstep].
    - split; [intros _; reflexivity|discriminate].
    - exact (first_episode_inv_step hp s s' tr Hpos IH Hstep). }
  intros Hpc He Hd. apply Hinv; assumption.
Qed.

Lemma first_episode_leftover_witness :
  let hp := {| learning_rate := 1e-3; gamma := 0.99; lam := 0.95; epsilon := 0.2;
               entropy_coef := 0.01; max_timestep := 1; rollout_steps := 2;
               epochs := 10; episode_num := 10; batch_size := 32 |} in
  let tr := {| obs := []; action := []; reward := 1; log_prob := 0;
               state_value := 0; next_state_value := 0; done := false |} in
  let s := {| st_pc := PcEpisode; st_ep := 1; st_timestep := 1; st_done := false;
              st_global_step := 1; episode_buffer := [tr]; update_calls := [] |} in
  reachable hp s /\ length (episode_buffer s) = 1.
Proof.
  cbn zeta.
  set (hp := {| learning_rate := 1e-3; gamma := 0.99; lam := 0.95; epsilon := 0.2;
                entropy_coef := 0.01; max_timestep := 1; rollout_steps := 2;
                epochs := 10; episode_num := 10; batch_size := 32 |}).
  set (tr := {| obs := []; action := []; reward := 1%R; log_prob := 0%R;
                state_value := 0%R; next_state_value := 0%R; done := false |}).
  set (s := {| st_pc := PcEpisode; st_ep := 1; st_timestep := 1; st_done := false;
               st_global_step := 1; episode_buffer := [tr]; update_calls := [] |}).
  assert (Hr : reachable hp s).
  { apply (reach_step hp
             {| st_pc := PcLoopHead; st_ep := 0; st_timestep := 1; st_done := false;
                st_global_step := 1; episode_buffer := [tr]; update_calls := [] |} tr);
      [|reflexivity].
    apply (reach_step hp
             {| st_pc := PcTrigger; st_ep := 0; st_timestep := 1; st_done := false;
                st_global_step := 1; episode_buffer := [tr]; update_calls := [] |} tr);
      [|reflexivity].
    apply (reach_step hp
             {| st_pc := PcLoopHead; st_ep := 0; st_timestep := 0; st_done := false;
                st_global_step := 0; episode_buffer := []; update_calls := [] |} tr);
      [|reflexivity].
    apply (reach_step hp init_state tr); [apply reach_init | reflexivity]. }
  split; [exact Hr|].
  exact (first_episode_leftover hp s ltac:(cbn; lia) Hr eq_refl eq_refl eq_refl).
Defined.

End TrainerMore.

(** ** Further properties of the estimator and of the loss *)

Module EstimatorMore.
Import Tensor LearningAgent EstimatorFacts.

Lemma broadcast2_mismatch (f : R -> R -> R) (a b : tensor) :
  length a <> length b -> length a <> 1%nat -> length b <> 1%nat ->
  broadcast2 f a b = None.
Proof.
  intros Hne Ha Hb. unfold broadcast2.
  destruct (Nat.eqb_spec (length a) (length b)) as [Heq|_]; [contradiction|].
  destruct a as [|x [|x' a]]; cbn in Ha; try congruence;
    destruct b as [|y [|y' b]]; cbn in Hb; try congruence; reflexivity.
Qed.

Lemma sum_map_le (A : Type) (f g : A -> R) (l : list A) :
  (forall x, In x l -> f x <= g x) -> sum (map f l) <= sum (map g l).
Proof.
  unfold sum. induction l as [|x l IH]; intros Hfg; cbn; [lra|].
  pose proof (Hfg x (or_introl eq_refl)).
  assert (fold_right Rplus 0 (map f l) <= fold_right Rplus 0 (map g l))
    by (apply IH; intros y Hy; apply Hfg; right; exact Hy).
  lra.
Qed.

Lemma sum_upto_le (n : nat) (f g : nat -> R) :
  (forall i, (i < n)%nat -> f i <= g i) -> sum_upto n f <= sum_upto n g.
Proof.
  intros Hfg. unfold sum_upto. apply sum_map_le.
  intros i Hi. apply in_seq in Hi. apply Hfg. lia.
Qed.

Lemma sum_upto_ext (n : nat) (f g : nat -> R) :
  (forall i, (i < n)%nat -> f i = g i) -> sum_upto n f = sum_upto n g.
Proof.
  intros Hfg. unfold sum_upto. f_equal. apply map_ext_in.
  intros i Hi. apply in_seq in Hi. apply Hfg. lia.
Qed.

Lemma sum_upto_scale (n : nat) (c : R) (f : nat -> R) :
  sum_upto n (fun i => c * f i) = c * sum_upto n f.
Proof.
  unfold sum_upto, sum. induction (seq 0 n) as [|i l IH]; cbn; [ring|].
  rewrite IH. ring.
Qed.

Lemma sum_upto_zero (n : nat) (f : nat -> R) :
  (forall i, (i < n)%nat -> f i = 0) -> sum_upto n f = 0.
Proof.
  intros Hf. rewrite (sum_upto_ext n f (fun i => 0 * 1)) by (intros i Hi; rewrite Hf by exact Hi; ring).
  rewrite sum_upto_scale. ring.
Qed.

Lemma sum_upto_nonneg (n : nat) (f : nat -> R) :
  (forall i, (i < n)%nat -> 0 <= f i) -> 0 <= sum_upto n f.
Proof.
  intros Hf. rewrite <- (sum_upto_zero n (fun _ => 0)) by reflexivity.
  apply sum_upto_le. exact Hf.
Qed.

Lemma inv_INR_nonneg (n : nat) : 0 <= / INR n.
Proof.
  destruct n as [|n].
  - cbn. rewrite Rinv_0. lra.
  - left. apply Rinv_0_lt_compat. apply lt_0_INR. lia.
Qed.

Lemma div_INR_le (n : nat) (x y : R) : x <= y -> x / INR n <= y / INR n.
Proof.
  intros Hxy. unfold Rdiv. apply Rmult_le_compat_r; [apply inv_INR_nonneg|exact Hxy].
Qed.

Lemma mean_as_sum_upto (l : tensor) :
  mean l = sum_upto (length l) (fun i => nth i l 0) / INR (length l).
Proof. apply mean_by_index. reflexivity. Qed.

Lemma ppo_loss_eval (hp : hyper) (lp lpo adv values returns entropy : tensor) :
  length lpo = length lp -> length adv = length lp ->
  length returns = length values ->
  ppo_loss hp lp lpo adv values returns entropy =
    Some (spec_policy_loss hp lp lpo adv + 0.5 * spec_value_loss values returns
            - entropy_coef hp * mean entropy,
          spec_policy_loss hp lp lpo adv,
          spec_value_loss values returns).
Proof.
  intros Hlpo Hadv Hret.
  destruct (policy_loss_spec hp lp lpo adv Hlpo Hadv) as [Hr Hpl].
  cbn zeta in Hr, Hpl.
  unfold ppo_loss, sub, mul, minimum.
  rewrite (broadcast2_same_length Rminus lp lpo) by lia. cbn [bind].
  set (ratio := map exp (map2 Rminus lp lpo)) in *.
  assert (Hc : length (clamp ratio (1.0 - epsilon hp) (1.0 + epsilon hp)) = length adv)
    by (unfold clamp; rewrite length_map; lia).
  rewrite (broadcast2_same_length Rmult ratio adv) by lia. cbn [bind].
  rewrite (broadcast2_same_length Rmult (clamp _ _ _) adv Hc). cbn [bind].
  rewrite (broadcast2_same_length Rmin)
    by (rewrite (length_map2 Rmult ratio adv) by lia;
        rewrite (length_map2 Rmult _ adv Hc); lia).
  cbn [bind]. rewrite (mse_loss_spec values returns Hret). cbn [bind].
  rewrite Hpl. reflexivity.
Qed.

(** X14. A terminal step cuts the trace: wherever done[t] = 1 the advantage is
    reward[t] - value[t], with no bootstrap and nothing carried over from
    later steps. *)
Theorem done_cuts_trace (hp : hyper) (rs vs nvs ds : tensor) (t : nat) :
  length vs = length rs -> length nvs = length rs -> length ds = length rs ->
  (t < length rs)%nat -> nth t ds 0 = 1 ->
  exists adv, compute_advantages hp rs vs nvs ds = Some adv /\
              nth t adv 0 = nth t rs 0 - nth t vs 0.
Proof.
  intros Hv Hnv Hd Ht Hdone.
  exists (spec_advantages hp rs vs nvs ds).
  split; [apply compute_advantages_spec; assumption|].
  rewrite (nth_spec_advantages hp rs vs nvs ds t Hv Hnv Hd Ht).
  unfold spec_delta. rewrite Hdone. ring.
Qed.

Lemma done_cuts_trace_witness :
  exists adv,
    compute_advantages init_hyper [1; 2; 3] [0.5; 0.5; 0.5] [4; 4; 4] [0; 1; 0] = Some adv /\
    nth 1 adv 0 = 2 - 0.5.
Proof.
  apply (done_cuts_trace init_hyper [1; 2; 3] [0.5; 0.5; 0.5] [4; 4; 4] [0; 1; 0] 1);
    try reflexivity. cbn. lia.
Defined.

(** X15. With gamma = 0 the estimator is myopic: every advantage is
    reward[t] - value[t]. *)
Theorem gamma_zero_myopic (hp : hyper) (rs vs nvs ds : tensor) :
  gamma hp = 0 ->
  length vs = length rs -> length nvs = length rs -> length ds = length rs ->
  exists adv, compute_advantages hp rs vs nvs ds = Some adv /\
              length adv = length rs /\
              forall t, (t < length rs)%nat -> nth t adv 0 = nth t rs 0 - nth t vs 0.
Proof.
  intros Hg Hv Hnv Hd.
  exists (spec_advantages hp rs vs nvs ds).
  split; [apply compute_advantages_spec; assumption|].
  split; [apply length_spec_advantages; assumption|].
  intros t Ht. rewrite (nth_spec_advantages hp rs vs nvs ds t Hv Hnv Hd Ht).
  unfold spec_delta. rewrite Hg. ring.
Qed.

Lemma gamma_zero_myopic_witness :
  let hp := {| learning_rate := 1e-3; gamma := 0; lam := 0.95; epsilon := 0.2;
               entropy_coef := 0.01; max_timestep := 1000; rollout_steps := 100;
               epochs := 10; episode_num := 10; batch_size := 32 |} in
  exists adv, compute_advantages hp [1; 2] [0.5; 0.5] [4; 4] [0; 0] = Some adv /\
              length adv = 2%nat /\
              forall t, (t < 2)%nat -> nth t adv 0 = nth t [1; 2] 0 - nth t [0.5; 0.5] 0.
Proof.
  cbn zeta.
  apply (gamma_zero_myopic
           {| learning_rate := 1e-3; gamma := 0; lam := 0.95; epsilon := 0.2;
              entropy_coef := 0.01; max_timestep := 1000; rollout_steps := 100;
              epochs := 10; episode_num := 10; batch_size := 32 |}
           [1; 2] [0.5; 0.5] [4; 4] [0; 0]); reflexivity.
Defined.

(** X16. With lambda = 0 the estimator is the one-step TD residual:
    advantage[t] = reward[t] + gamma * next_value[t] * (1 - done[t])
    - value[t]. *)
Theorem lambda_zero_td (hp : hyper) (rs vs nvs ds : tensor) :
  lam hp = 0 ->
  length vs = length rs -> length nvs = length rs -> length ds = length rs ->
  exists adv, compute_advantages hp rs vs nvs ds = Some adv /\
              length adv = length rs /\
              forall t, (t < length rs)%nat ->
                nth t adv 0 =
                  nth t rs 0 + gamma hp * nth t nvs 0 * (1 - nth t ds 0) - nth t vs 0.
Proof.
  intros Hl Hv Hnv Hd.
  exists (spec_advantages hp rs vs nvs ds).
  split; [apply compute_advantages_spec; assumption|].
  split; [apply length_spec_advantages; assumption|].
  intros t Ht. rewrite (nth_spec_advantages hp rs vs nvs ds t Hv Hnv Hd Ht).
  unfold spec_delta. rewrite Hl. ring.
Qed.

Lemma lambda_zero_td_witness :
  let hp := {| learning_rate := 1e-3; gamma := 0.99; lam := 0; epsilon := 0.2;
               entropy_coef := 0.01; max_timestep := 1000; rollout_steps := 100;
               epochs := 10; episode_num := 10; batch_size := 32 |} in
  exists adv, compute_advantages hp [1; 2] [0.5; 0.5] [4; 4] [0; 0] = Some adv /\
              length adv = 2%nat /\
              forall t, (t < 2)%nat ->
                nth t adv 0 =
                  nth t [1; 2] 0 + 0.99 * nth t [4; 4] 0 * (1 - nth t [0; 0] 0)
                  - nth t [0.5; 0.5] 0.
Proof.
  cbn zeta.
  apply (lambda_zero_td
           {| learning_rate := 1e-3; gamma := 0.99; lam := 0; epsilon := 0.2;
              entropy_coef := 0.01; max_timestep := 1000; rollout_steps := 100;
              epochs := 10; episode_num := 10; batch_size := 32 |}
           [1; 2] [0.5; 0.5] [4; 4] [0; 0]); reflexivity.
Defined.

(** X17. A done tensor shorter than the rewards is never broadcast through the
    loop: [compute_advantages] raises, whatever the other tensors are. *)
Theorem short_dones_raise (hp : hyper) (rs vs nvs ds : tensor) :
  (length ds < length rs)%nat ->
  compute_advantages hp rs vs nvs ds = None.
Proof.
  intros Hlt. unfold compute_advantages.
  destruct (mul _ _) as [t1|]; [cbn [bind]|reflexivity].
  destruct (add _ _) as [t2|]; [cbn [bind]|reflexivity].
  destruct (sub _ _) as [deltas|]; [cbn [bind]|reflexivity].
  destruct (length rs) as [|n] eqn:Hn; [lia|].
  rewrite seq_S, rev_app_distr. cbn [rev app Nat.add gae_loop].
  destruct (getitem deltas n) as [d|]; [cbn [bind]|reflexivity].
  assert (Hnone : getitem ds n = None) by (apply nth_error_None; lia).
  rewrite Hnone. reflexivity.
Qed.

Lemma short_dones_raise_witness :
  compute_advantages init_hyper [1; 1; 1] [0; 0; 0] [0; 0; 0] [0] = None.
Proof.
  apply (short_dones_raise init_hyper [1; 1; 1] [0; 0; 0] [0; 0; 0] [0]). cbn. lia.
Defined.




(** *** The loss *)

(** X19. When the policy has not changed (equal new and old log-probabilities)
    and epsilon is not negative, the policy loss is minus the mean
    advantage. *)
Theorem unchanged_policy_loss (hp : hyper) (lp adv values returns entropy : tensor) :
  0 <= epsilon hp ->
  length adv = length lp -> length returns = length values ->
  exists total value_loss,
    ppo_loss hp lp lp adv values returns entropy = Some (total, - mean adv, value_loss).
Proof.
  intros Heps Hadv Hret.
  rewrite (ppo_loss_eval hp lp lp adv values returns entropy eq_refl Hadv Hret).
  eexists. eexists. f_equal. f_equal. f_equal.
  unfold spec_policy_loss. f_equal.
  rewrite mean_as_sum_upto, Hadv. f_equal.
  apply sum_upto_ext. intros i Hi.
  unfold spec_surrogate, spec_ratio. rewrite Rminus_diag, exp_0.
  rewrite np_clip_inside by lra. rewrite Rmult_1_l. apply Rmin_left. lra.
Qed.

Lemma unchanged_policy_loss_witness :
  exists total value_loss,
    ppo_loss init_hyper [0.3; 0.4] [0.3; 0.4] [1; 3] [1; 2] [1.5; 2.5] [0; 0]
      = Some (total, - mean [1; 3], value_loss).
Proof.
  apply (unchanged_policy_loss init_hyper [0.3; 0.4] [1; 3] [1; 2] [1.5; 2.5] [0; 0]);
    [cbn; lra | reflexivity | reflexivity].
Defined.

(** X20. The value loss is never negative, and it is 0 when the predicted values
    equal the returns. *)
Theorem value_loss_nonneg (hp : hyper) (lp lpo adv values returns entropy : tensor) :
  (0 < length values)%nat ->
  length lpo = length lp -> length adv = length lp ->
  length returns = length values ->
  exists total policy_loss value_loss,
    ppo_loss hp lp lpo adv values returns entropy = Some (total, policy_loss, value_loss) /\
    0 <= value_loss /\ (values = returns -> value_loss = 0).
Proof.
  intros _ Hlpo Hadv Hret.
  rewrite (ppo_loss_eval hp lp lpo adv values returns entropy Hlpo Hadv Hret).
  eexists. eexists. eexists. split; [reflexivity|].
  unfold spec_value_loss. split.
  - unfold Rdiv. apply Rmult_le_pos; [|apply inv_INR_nonneg].
    apply sum_upto_nonneg. intros i _. cbv beta.
    set (x := nth i values 0 - nth i returns 0). nra.
  - intros ->. rewrite sum_upto_zero by (intros; ring). unfold Rdiv. ring.
Qed.

Lemma value_loss_nonneg_witness :
  exists total policy_loss value_loss,
    ppo_loss init_hyper [0; 0] [0; 0] [1; 3] [1; 2] [1.5; 2.5] [0; 0]
      = Some (total, policy_loss, value_loss) /\
    0 <= value_loss /\ ([1; 2] = [1.5; 2.5] -> value_loss = 0).
Proof.
  apply (value_loss_nonneg init_hyper [0; 0] [0; 0] [1; 3] [1; 2] [1.5; 2.5] [0; 0]);
    try reflexivity.
  cbn. lia.
Defined.

(** X21. The clipped objective is pessimistic: the policy loss is never below
    the unclipped loss -mean(ratio * advantage). *)
Theorem policy_loss_pessimistic (hp : hyper) (lp lpo adv values returns entropy : tensor) :
  (0 < length lp)%nat ->
  length lpo = length lp -> length adv = length lp ->
  length returns = length values ->
  exists total policy_loss value_loss,
    ppo_loss hp lp lpo adv values returns entropy = Some (total, policy_loss, value_loss) /\
    - (sum_upto (length lp) (fun i => exp (nth i lp 0 - nth i lpo 0) * nth i adv 0)
       / INR (length lp)) <= policy_loss.
Proof.
  intros _ Hlpo Hadv Hret.
  rewrite (ppo_loss_eval hp lp lpo adv values returns entropy Hlpo Hadv Hret).
  eexists. eexists. eexists. split; [reflexivity|].
  unfold spec_policy_loss. apply Ropp_le_contravar, div_INR_le, sum_upto_le.
  intros i _. unfold spec_surrogate, spec_ratio. apply Rmin_l.
Qed.

Lemma policy_loss_pessimistic_witness :
  exists total policy_loss value_loss,
    ppo_loss init_hyper [1; 0] [0; 0] [1; 3] [1; 2] [1.5; 2.5] [0; 0]
      = Some (total, policy_loss, value_loss) /\
    - (sum_upto 2 (fun i => exp (nth i [1; 0] 0 - nth i [0; 0] 0) * nth i [1; 3] 0)
       / INR 2) <= policy_loss.
Proof.
  apply (policy_loss_pessimistic init_hyper [1; 0] [0; 0] [1; 3] [1; 2] [1.5; 2.5] [0; 0]);
    try reflexivity.
  cbn. lia.
Defined.

(** X22. No credit beyond the clip range: with epsilon not negative and no
    negative advantage in the batch, the policy loss is at least
    -(1 + epsilon) * mean(advantage), however large the probability ratios
    are. *)
Theorem policy_loss_capped (hp : hyper) (lp lpo adv values returns entropy : tensor) :
  (0 < length lp)%nat ->
  0 <= epsilon hp ->
  (forall i, (i < length lp)%nat -> 0 <= nth i adv 0) ->
  length lpo = length lp -> length adv = length lp ->
  length returns = length values ->
  exists total policy_loss value_loss,
    ppo_loss hp lp lpo adv values returns entropy = Some (total, policy_loss, value_loss) /\
    - ((1 + epsilon hp) * mean adv) <= policy_loss.
Proof.
  intros _ Heps Hnn Hlpo Hadv Hret.
  rewrite (ppo_loss_eval hp lp lpo adv values returns entropy Hlpo Hadv Hret).
  eexists. eexists. eexists. split; [reflexivity|].
  unfold spec_policy_loss. apply Ropp_le_contravar.
  rewrite mean_as_sum_upto, Hadv.
  replace ((1 + epsilon hp)
           * (sum_upto (length lp) (fun i => nth i adv 0) / INR (length lp)))
    with (sum_upto (length lp) (fun i => (1 + epsilon hp) * nth i adv 0) / INR (length lp))
    by (rewrite sum_upto_scale; unfold Rdiv; ring).
  apply div_INR_le, sum_upto_le. intros i Hi.
  unfold spec_surrogate.
  eapply Rle_trans; [apply Rmin_r|].
  apply Rmult_le_compat_r; [apply Hnn, Hi|].
  apply np_clip_bounds. lra.
Qed.

Lemma policy_loss_capped_witness :
  exists total policy_loss value_loss,
    ppo_loss init_hyper [5; 0] [0; 0] [1; 3] [1; 2] [1.5; 2.5] [0; 0]
      = Some (total, policy_loss, value_loss) /\
    - ((1 + epsilon init_hyper) * mean [1; 3]) <= policy_loss.
Proof.
  apply (policy_loss_capped init_hyper [5; 0] [0; 0] [1; 3] [1; 2] [1.5; 2.5] [0; 0]);
    try reflexivity.
  - cbn. lia.
  - cbn. lra.
  - intros [|[|i]] Hi; cbn in *; try lra; lia.
Defined.

(** X23. Log-probability tensors of different lengths, neither of length 1,
    cannot be broadcast: [ppo_loss] raises.  The same holds for values
    against returns. *)
Theorem ppo_loss_shape_mismatch (hp : hyper) (lp lpo adv values returns entropy : tensor) :
  (length lp <> length lpo /\ length lp <> 1%nat /\ length lpo <> 1%nat) ->
  ppo_loss hp lp lpo adv values returns entropy = None.
Proof.
  intros (Hne & H1 & H2). unfold ppo_loss, sub.
  rewrite (broadcast2_mismatch Rminus lp lpo Hne H1 H2). reflexivity.
Qed.

Lemma ppo_loss_shape_mismatch_witness :
  ppo_loss init_hyper [0; 0; 0] [0; 0] [1; 3] [1; 2] [1.5; 2.5] [0; 0] = None.
Proof.
  apply (ppo_loss_shape_mismatch init_hyper [0; 0; 0] [0; 0] [1; 3] [1; 2] [1.5; 2.5] [0; 0]).
  cbn. repeat split; lia.
Defined.

End EstimatorMore.

(** ** The minibatch loop *)

Module MinibatchFacts.
Import Tensor LearningAgent EstimatorFacts.

Local Open Scope nat_scope.









(** A zero [batch_size] makes [range] raise before any minibatch is
    formed. *)
Lemma epoch_batches_zero (hp : hyper) (indices : list nat) :
  batch_size hp = 0 -> epoch_batches hp indices = None.
Proof. intros H0. unfold epoch_batches. rewrite H0. reflexivity. Qed.

End MinibatchFacts.
